(** * Boost.Sort spreadsort: [string_sort] and [reverse_string_sort]

    A shallow embedding of [include/boost/sort/spreadsort/string_sort.hpp].
    The header holds the seven public overloads of [string_sort] and
    [reverse_string_sort].  Each of them tests the size of the range against
    [detail::min_sort_size], possibly scans for keys of length zero, and then
    ends in one call of a collaborator: [std::sort] or an engine from
    [detail/string_sort.hpp].

    The first part embeds the header and states what it does for any
    collaborators.  The second part models the engine after its
    specification and proves that it sorts; the last part puts the two
    together. *)

From Stdlib Require Import ZArith Lia.
From Stdlib.Strings Require Import Byte.
From stdpp Require Import list sorting.

(** ** The behaviour of an entry point *)

(** The iterators [first] and [last] are positions in the range handed to the
    entry point: position [0] is the caller's [first], and the caller's
    [last] is the length of the range. *)

Section Calls.
Context {K C : Type}.

(** [Compare], [Get_char] and [Get_length] are the functor types of the
    templates. *)
Definition Compare : Type := K → K → bool.
Definition Get_char : Type := K → nat → C.
Definition Get_length : Type := K → nat.

(** The collaborator calls the header makes, with the arguments they
    receive. *)
Inductive call : Type :=
| std_sort (first last : nat)
| std_sort_comp (first last : nat) (comp : Compare)
| detail_string_sort (first last : nat) (unused : C)
| detail_reverse_string_sort (first last : nat) (unused : C)
| detail_string_sort_get
    (first last : nat) (getchar : Get_char) (length : Get_length) (unused : C)
| detail_string_sort_get_comp
    (first last : nat) (getchar : Get_char) (length : Get_length)
    (comp : Compare) (unused : C)
| detail_reverse_string_sort_get_comp
    (first last : nat) (getchar : Get_char) (length : Get_length)
    (comp : Compare) (unused : C).

(** The functor calls an entry point makes itself: [length( *it)] and
    [getchar( *it, offset)], with the position of [it]. *)
Inductive access : Type :=
| get_length (pos : nat)
| get_char (pos offset : nat).

(** How an entry point ends: a plain [return], a final collaborator call,
    or the dereference of an iterator outside the range. *)
Inductive outcome : Type :=
| returned
| delegated (c : call)
| out_of_range.

(** What an entry point does: its functor calls in order, and how it
    ends. *)
Definition behaviour : Type := list access * outcome.

(** The comparator a call receives, if it receives one. *)
Definition call_comp (c : call) : option Compare :=
  match c with
  | std_sort _ _ => None
  | std_sort_comp _ _ comp => Some comp
  | detail_string_sort _ _ _ => None
  | detail_reverse_string_sort _ _ _ => None
  | detail_string_sort_get _ _ _ _ _ => None
  | detail_string_sort_get_comp _ _ _ _ comp _ => Some comp
  | detail_reverse_string_sort_get_comp _ _ _ _ comp _ => Some comp
  end.

(** Is the functor call one of [getchar]? *)
Definition is_get_char (a : access) : bool :=
  match a with
  | get_char _ _ => true
  | get_length _ => false
  end.

(** The position a functor call reads. *)
Definition access_pos (a : access) : nat :=
  match a with
  | get_length p => p
  | get_char p _ => p
  end.
End Calls.

Arguments call : clear implicits.
Arguments outcome : clear implicits.
Arguments behaviour : clear implicits.
Arguments Compare : clear implicits.
Arguments Get_char : clear implicits.
Arguments Get_length : clear implicits.

(** ** The collaborators *)

(** The entry points are written against two interfaces.  [std::sort]
    belongs to the C++ standard library; [value_lt] is [operator<] of the
    value type, which [std::sort(first, last)] compares with. *)
Class Std_sort (K : Type) : Type := {
  value_lt : Compare K;
  sort_with : Compare K → list K → list K
}.

(** The engines belong to [detail/string_sort.hpp]: one field for each
    overload the header calls. *)
Class Detail (K C : Type) : Type := {
  engine : C → list K → list K;
  reverse_engine : C → list K → list K;
  engine_get : Get_char K C → Get_length K → C → list K → list K;
  engine_get_comp :
    Get_char K C → Get_length K → Compare K → C → list K → list K;
  reverse_engine_get_comp :
    Get_char K C → Get_length K → Compare K → C → list K → list K
}.

Section Final.
Context {K C : Type} `{!Std_sort K, !Detail K C}.

(** A collaborator works in place on [first, last) and leaves the rest of
    the sequence alone. *)
Definition on_range (f : list K → list K) (first last : nat)
    (range : list K) : list K :=
  take first range ++ f (take (last - first) (drop first range))
    ++ drop last range.

Definition run_call (c : call K C) (range : list K) : list K :=
  match c with
  | std_sort f l => on_range (sort_with value_lt) f l range
  | std_sort_comp f l comp => on_range (sort_with comp) f l range
  | detail_string_sort f l unused => on_range (engine unused) f l range
  | detail_reverse_string_sort f l unused =>
      on_range (reverse_engine unused) f l range
  | detail_string_sort_get f l getchar length unused =>
      on_range (engine_get getchar length unused) f l range
  | detail_string_sort_get_comp f l getchar length comp unused =>
      on_range (engine_get_comp getchar length comp unused) f l range
  | detail_reverse_string_sort_get_comp f l getchar length comp unused =>
      on_range (reverse_engine_get_comp getchar length comp unused) f l range
  end.

(** The sequence an entry point leaves behind; [None] when it read outside
    the range. *)
Definition final (b : behaviour K C) (range : list K) : option (list K) :=
  match b.2 with
  | returned => Some range
  | delegated c => Some (run_call c range)
  | out_of_range => None
  end.
End Final.

(** ** The entry points *)

Section EntryPoints.
Context {K : Type}.

(** [detail::min_sort_size] is an enumerator of [detail/constants.hpp];
    the header only compares [last - first] with it. *)
Variable min_sort_size : Z.

(** [last - first < detail::min_sort_size] *)
Definition too_small (range : list K) : bool :=
  (Z.of_nat (length range) <? min_sort_size)%Z.

(** [string_sort(first, last, unused)] *)
Definition string_sort_unused {C} (range : list K) (unused : C)
    : behaviour K C :=
  if too_small range then ([], delegated (std_sort 0 (length range)))
  else ([], delegated (detail_string_sort 0 (length range) unused)).

(** [string_sort(first, last)], with [unsigned char unused = '\0'] *)
Definition string_sort (range : list K) : behaviour K byte :=
  string_sort_unused range x00.

(** [reverse_string_sort(first, last, comp, unused)] *)
Definition reverse_string_sort_unused {C} (range : list K)
    (comp : Compare K) (unused : C) : behaviour K C :=
  if too_small range then
    ([], delegated (std_sort_comp 0 (length range) comp))
  else ([], delegated (detail_reverse_string_sort 0 (length range) unused)).

(** [reverse_string_sort(first, last, comp)] *)
Definition reverse_string_sort (range : list K) (comp : Compare K)
    : behaviour K byte :=
  reverse_string_sort_unused range comp x00.

(** Where a scan for a key of non-zero length ends. *)
Inductive scan : Type :=
| scan_out_of_range
| scan_return
| scan_at (pos : nat) (key : K).

(** [while (!length( *first)) { if (++first == last) return; }]
    [rest] is what lies in [first, last). *)
Fixpoint skip_front (length : Get_length K) (first : nat) (rest : list K)
    : list access * scan :=
  match rest with
  | [] => ([], scan_out_of_range)
  | key :: rest' =>
      if length key =? 0 then
        match rest' with
        | [] => ([get_length first], scan_return)
        | _ :: _ =>
            let '(t, s) := skip_front length (S first) rest' in
            (get_length first :: t, s)
        end
      else ([get_length first], scan_at first key)
  end.

(** [while (!length( *(--last))) { if (first == last) return; }] *)
Fixpoint skip_back (length : Get_length K) (range : list K) (last : nat)
    : list access * scan :=
  match last with
  | 0 => ([], scan_out_of_range)
  | S last' =>
      match range !! last' with
      | None => ([], scan_out_of_range)
      | Some key =>
          if length key =? 0 then
            if last' =? 0 then ([get_length last'], scan_return)
            else
              let '(t, s) := skip_back length range last' in
              (get_length last' :: t, s)
          else ([get_length last'], scan_at last' key)
      end
  end.

(** [string_sort(first, last, getchar, length)] *)
Definition string_sort_get {C} (range : list K) (getchar : Get_char K C)
    (length : Get_length K) : behaviour K C :=
  if too_small range then ([], delegated (std_sort 0 (List.length range)))
  else
    match skip_front length 0 range with
    | (t, scan_out_of_range) => (t, out_of_range)
    | (t, scan_return) => (t, returned)
    | (t, scan_at first key) =>
        (t ++ [get_char first 0],
         delegated (detail_string_sort_get first (List.length range)
                      getchar length (getchar key 0)))
    end.

(** [string_sort(first, last, getchar, length, comp)] *)
Definition string_sort_get_comp {C} (range : list K)
    (getchar : Get_char K C) (length : Get_length K) (comp : Compare K)
    : behaviour K C :=
  if too_small range then
    ([], delegated (std_sort_comp 0 (List.length range) comp))
  else
    match skip_front length 0 range with
    | (t, scan_out_of_range) => (t, out_of_range)
    | (t, scan_return) => (t, returned)
    | (t, scan_at first key) =>
        (t ++ [get_char first 0],
         delegated (detail_string_sort_get_comp first (List.length range)
                      getchar length comp (getchar key 0)))
    end.

(** [reverse_string_sort(first, last, getchar, length, comp)] *)
Definition reverse_string_sort_get_comp {C} (range : list K)
    (getchar : Get_char K C) (length : Get_length K) (comp : Compare K)
    : behaviour K C :=
  if too_small range then
    ([], delegated (std_sort_comp 0 (List.length range) comp))
  else
    match skip_back length range (List.length range) with
    | (t, scan_out_of_range) => (t, out_of_range)
    | (t, scan_return) => (t, returned)
    | (t, scan_at last key) =>
        (t ++ [get_char last 0],
         delegated (detail_reverse_string_sort_get_comp 0 (last + 1)
                      getchar length comp (getchar key 0)))
    end.
End EntryPoints.

(** * The sorting engine of [detail/string_sort.hpp] *)

(** The engine header is not part of the sources at hand.  Everything in
    this part is written after sections 4.2 to 4.5 of the specification. *)

(** Modelled from the spec: the unsigned character type a digit is read as
    (the template parameter [Unsigned_char_type], whose definition and use
    are in [detail/string_sort.hpp]); its values are [0..radix-1]. *)
Class Unsigned_char_type (C : Type) : Type := {
  char_value : C → nat;
  radix : nat;
  char_value_lt : ∀ c, char_value c < radix
}.

(** [unsigned char]: byte characters, digits [0..255]. *)
#[export] Instance unsigned_char : Unsigned_char_type byte := {|
  char_value := Byte.to_nat;
  radix := 256;
  char_value_lt := λ c, le_n_S _ _ (Byte.to_nat_bounded c)
|}.

(** Modelled from the spec: the digit-derived order of the Accessor Contract
    (the comparison functors of [detail/string_sort.hpp]): keys compare as
    their digit sequences, a strict prefix before its extensions. *)
Fixpoint lex_lt (a b : list nat) : bool :=
  match a, b with
  | _, [] => false
  | [], _ :: _ => true
  | x :: a', y :: b' => (x <? y) || ((x =? y) && lex_lt a' b')
  end.

Section DigitOrder.
Context {K : Type}.
Variable digit : K → nat → nat.
Variable len : K → nat.

(** Modelled from the spec: the digits of a key, offsets [0..length-1]
    (the accessor pair of section 6). *)
Definition key_digits (k : K) : list nat := digit k <$> seq 0 (len k).

(** Modelled from the spec: ascending digit order, the default comparator
    (section 4.1). *)
Definition digit_lt : Compare K :=
  λ a b, lex_lt (key_digits a) (key_digits b).

(** Modelled from the spec: descending digit order, the order of the Reverse
    Adapter (section 4.5). *)
Definition digit_gt : Compare K := λ a b, digit_lt b a.

(** Modelled from the spec: two keys agree on the digits below an offset,
    as the members of one bucket do (section 3). *)
Definition agree (offset : nat) (a b : K) : Prop :=
  ∀ i, i < offset → digit a i = digit b i.
End DigitOrder.

Section Engine.
Context {K : Type}.

(** The number of digit values. *)
Variable radix : nat.
(** The Accessor Contract: [digit(key, offset)], [length(key)] and the
    comparator. *)
Variable digit : K → nat → nat.
Variable len : K → nat.
Variable comp : Compare K.
(** The fallback comparison sort. *)
Variable fallback : Compare K → list K → list K.
(** The tuned constants of section 4.4: the bucket size below which a
    bucket is finished by comparison, and the split cap. *)
Variable helper_threshold max_splits : nat.
(** The Reverse Adapter (section 4.5) runs the same engine mirrored. *)
Variable reverse : bool.

(** Modelled from the spec: the Termination Handler (section 4.2, in
    [detail/string_sort.hpp]) puts every key whose length equals the
    offset into the terminal bucket and leaves the others for the radix
    work of this level. *)
Definition termination_handler (offset : nat) (range : list K)
    : list K * list K :=
  (filter (λ k, len k = offset) range, filter (λ k, len k ≠ offset) range).

(** Modelled from the spec: the bucket of a key at an offset (section 4.3,
    step 2); the Reverse Adapter places the highest digit first (section
    4.5 (a)). *)
Definition bin_of (offset : nat) (k : K) : nat :=
  if reverse then radix - 1 - digit k offset else digit k offset.

(** Modelled from the spec: one counting pass over the keys (section 4.3,
    step 3). *)
Definition tally (offset : nat) (keys : list K) : list nat :=
  foldl (λ counts k, alter S (bin_of offset k) counts)
        (replicate radix 0) keys.

(** Modelled from the spec: bucket boundaries by a prefix sum over the
    counts, in digit order (section 4.3, step 4): where each bucket
    starts. *)
Fixpoint bin_starts (start : nat) (counts : list nat) : list nat :=
  match counts with
  | [] => []
  | c :: counts' => start :: bin_starts (start + c) counts'
  end.

(** Modelled from the spec: where each bucket ends (section 4.3,
    step 4). *)
Fixpoint bin_ends (start : nat) (counts : list nat) : list nat :=
  match counts with
  | [] => []
  | c :: counts' => (start + c) :: bin_ends (start + c) counts'
  end.

(** Modelled from the spec: a position swap within the one buffer (section
    9). *)
Definition swap (arr : list K) (i j : nat) : list K :=
  match arr !! i, arr !! j with
  | Some x, Some y => <[j:=x]> (<[i:=y]> arr)
  | _, _ => arr
  end.

(** Modelled from the spec: the counting permutation by swap chains
    (section 4.3, step 5, in [detail/string_sort.hpp]).  [next] holds the
    next free slot of every bucket.  The element in the next free slot of
    the current bucket [bin] is either at home, or is swapped into the
    next free slot of its target bucket, and the chain goes on with the
    element displaced to the current slot.  A bucket whose free slot
    reached its end is complete.  Every round places one element or
    completes one bucket, so [fuel] counts the rounds. *)
Fixpoint permute (fuel : nat) (offset : nat) (ends : list nat)
    (bin : nat) (next : list nat) (arr : list K) : list K :=
  match fuel with
  | 0 => arr
  | S fuel' =>
      match next !! bin, ends !! bin with
      | Some slot, Some stop =>
          if slot <? stop then
            match arr !! slot with
            | Some k =>
                let target := bin_of offset k in
                if target =? bin then
                  permute fuel' offset ends bin (<[bin:=S slot]> next) arr
                else
                  match next !! target with
                  | Some free =>
                      permute fuel' offset ends bin
                        (<[target:=S free]> next) (swap arr slot free)
                  | None => arr
                  end
            | None => arr
            end
          else permute fuel' offset ends (S bin) next arr
      | _, _ => arr
      end
  end.

(** The state of the counting permutation while bucket [bin] is filled:
    every free slot lies within its bucket, the slots of a bucket below its
    free slot hold keys of that bucket, and the buckets before [bin] are
    complete.  Bucket [b] takes the positions from [sum_list (take b counts)]
    up to [sum_list (take (S b) counts)]. *)
Record placing (offset : nat) (counts : list nat) (bin : nat)
    (next : list nat) (arr : list K) : Prop := {
  placing_length : length next = length counts;
  placing_bounds : ∀ b p, next !! b = Some p →
    sum_list (take b counts) ≤ p ≤ sum_list (take (S b) counts);
  placing_home : ∀ b p i k, next !! b = Some p →
    sum_list (take b counts) ≤ i < p → arr !! i = Some k →
    bin_of offset k = b;
  placing_done : ∀ b, b < bin → b < length counts →
    next !! b = Some (sum_list (take (S b) counts))
}.

(** Modelled from the spec: the buckets as contiguous index ranges of the
    sequence (section 3), cut by their sizes. *)
Fixpoint chunks (sizes : list nat) (arr : list K) : list (list K) :=
  match sizes with
  | [] => []
  | c :: sizes' => take c arr :: chunks sizes' (drop c arr)
  end.

(** Modelled from the spec: one level of the Bucket Partitioner (section
    4.3, in [detail/string_sort.hpp]): the terminal bucket, and the digit
    buckets in their order of placement. *)
Definition bucket_partitioner (offset : nat) (range : list K)
    : list K * list (list K) :=
  let '(terminal, rest) := termination_handler offset range in
  let counts := tally offset rest in
  let placed :=
    permute (length rest + radix) offset (bin_ends 0 counts) 0
            (bin_starts 0 counts) rest in
  (terminal, chunks counts placed).

(** Modelled from the spec: the Recursion Controller (section 4.4, in
    [detail/string_sort.hpp]) for one digit bucket.  [split] is the split
    counter of the path.  A bucket of fewer than two keys is final.  For any
    other bucket the counter is incremented; a bucket below the helper
    threshold, or one whose counter reached the cap, goes to the fallback
    sort, and any other bucket to [recurse], the Bucket Partitioner at the
    next offset. *)
Definition recursion_controller (recurse : list K → list K) (split : nat)
    (bucket : list K) : list K :=
  if length bucket <? 2 then bucket
  else
    let split' := S split in
    if (length bucket <? helper_threshold) || (max_splits <=? split')
    then fallback comp bucket
    else recurse bucket.

(** Modelled from the spec: the terminal bucket comes before the digit
    buckets (section 4.2), and after them under the Reverse Adapter (section
    4.5 (b)). *)
Definition arrange (terminal : list K) (finished : list (list K)) : list K :=
  if reverse then concat finished ++ terminal
  else terminal ++ concat finished.

(** Modelled from the spec: the engine as a whole (sections 4.3 and 4.4):
    partition the range at [offset], then let the Recursion Controller
    finish every digit bucket, recursing at [offset + 1] with the
    incremented counter.  [budget] bounds the depth of the recursion; the
    split cap keeps the depth below [max_splits]. *)
Fixpoint spread (budget : nat) (split offset : nat) (range : list K)
    : list K :=
  let '(terminal, buckets) := bucket_partitioner offset range in
  let recurse :=
    match budget with
    | 0 => λ bucket, bucket
    | S budget' => spread budget' (S split) (S offset)
    end in
  arrange terminal (recursion_controller recurse split <$> buckets).

(** Modelled from the spec: the engine starts the Bucket Partitioner on
    its range at offset 0 with a fresh split counter (section 4.1). *)
Definition spreadsort (range : list K) : list K :=
  spread max_splits 0 0 range.
End Engine.

Section Model.
Context {K C : Type} `{!Unsigned_char_type C}.

(** The value type of the overloads without functors is a string:
    [size()], [operator[]] and [operator<]. *)
Variable size : K → nat.
Variable at_ : K → nat → C.
Variable less : Compare K.
(** [std::sort] *)
Variable sort : Compare K → list K → list K.
Variable helper_threshold max_splits : nat.

(** Modelled from the spec: the digit a functor [getchar] yields, as an
    unsigned value (section 6). *)
Definition char_digit (getchar : Get_char K C) : K → nat → nat :=
  λ k offset, char_value (getchar k offset).

(** [std::sort] and [operator<] as the header is handed them. *)
Definition model_sort : Std_sort K :=
  {| value_lt := less; sort_with := sort |}.

(** Modelled from the spec: the five engine overloads of
    [detail/string_sort.hpp] the header calls.  Without functors the
    accessor pair is raw character extraction; without a comparator the
    order is the digit order (section 4.1), descending under the Reverse
    Adapter (section 4.5).  The character argument only fixes the
    character type. *)
Definition model : Detail K C := {|
  engine := λ _,
    spreadsort radix (char_digit at_) size
      (digit_lt (char_digit at_) size) sort
      helper_threshold max_splits false;
  reverse_engine := λ _,
    spreadsort radix (char_digit at_) size
      (digit_gt (char_digit at_) size) sort
      helper_threshold max_splits true;
  engine_get := λ getchar length _,
    spreadsort radix (char_digit getchar) length
      (digit_lt (char_digit getchar) length) sort
      helper_threshold max_splits false;
  engine_get_comp := λ getchar length comp _,
    spreadsort radix (char_digit getchar) length comp sort
      helper_threshold max_splits false;
  reverse_engine_get_comp := λ getchar length comp _,
    spreadsort radix (char_digit getchar) length comp sort
      helper_threshold max_splits true
|}.
End Model.

(** ** What the claims speak of *)

Section Notions.
Context {K C : Type}.

(** Whatever call ends the entry point, it receives [comp]. *)
Definition receives_comp (b : behaviour K C) (comp : Compare K) : Prop :=
  ∀ c, b.2 = delegated c → call_comp c = Some comp.

(** The entry point made no call of [getchar]. *)
Definition no_getchar (b : behaviour K C) : Prop :=
  Forall (λ a, is_get_char a = false) b.1.
End Notions.

(** [a] is a strict prefix of [b]: it is shorter and its digits are the
    first digits of [b]. *)
Definition strict_prefix {K : Type} (digit : K → nat → nat) (len : K → nat)
    (a b : K) : Prop :=
  len a < len b ∧ agree digit (len a) a b.

(** Every occurrence of [a] lies strictly before every occurrence of [b]. *)
Definition all_before {K : Type} (a b : K) (out : list K) : Prop :=
  ∀ i j, out !! i = Some a → out !! j = Some b → i < j.

(** No two keys of the range are fully equal: no two positions hold keys of
    the same length and the same digits. *)
Definition no_equal_keys {K : Type} (digit : K → nat → nat) (len : K → nat)
    (range : list K) : Prop :=
  NoDup (key_digits digit len <$> range).

(** What [std::sort] asks of its comparator: a strict weak ordering. *)
Record strict_weak_order {K : Type} (comp : Compare K) : Prop := {
  swo_irreflexive : ∀ a, comp a a = false;
  swo_transitive : ∀ a b c, comp a b = true → comp b c = true →
                   comp a c = true;
  swo_incomparable : ∀ a b c, comp a b = false → comp b a = false →
                     comp b c = false → comp c b = false →
                     comp a c = false ∧ comp c a = false
}.

(** [a] may stand before [b] under [comp]: [comp(b, a)] is false.  This is
    the relation [std::sort] establishes between an element and every later
    one. *)
Definition in_order {K : Type} (comp : Compare K) : relation K :=
  λ a b, comp b a = false.

#[export] Instance in_order_dec {K : Type} (comp : Compare K) (a b : K) :
  Decision (in_order comp a b) := bool_eq_dec (comp b a) false.

(** What [std::sort] promises: for a strict weak ordering the range is
    permuted so that no element compares less than an earlier one. *)
Definition sorts {K : Type} (sort : Compare K → list K → list K) : Prop :=
  ∀ comp l, strict_weak_order comp →
    sort comp l ≡ₚ l ∧ StronglySorted (in_order comp) (sort comp l).

(** Modelled from the spec: what the engine [detail::string_sort(first,
    last, unused)] of [detail/string_sort.hpp] owes its caller (sections 6
    and 8): whatever character it is handed, it leaves a permutation of the
    range it found, in ascending digit order. *)
Definition engine_sorts {K C : Type} `{!Unsigned_char_type C, !Detail K C}
    (size : K → nat) (at_ : K → nat → C) : Prop :=
  ∀ unused l,
    engine unused l ≡ₚ l ∧
    StronglySorted (in_order (digit_lt (char_digit at_) size))
      (engine unused l).

(** Two sequences hold the same keys position by position: keys of the
    same length with the same digits. *)
Definition same_keys {K : Type} (digit : K → nat → nat) (len : K → nat)
    (l1 l2 : list K) : Prop :=
  key_digits digit len <$> l1 = key_digits digit len <$> l2.

(** The keys of the range are told by their length and digits, as strings
    are: two of them with the same length and digits are one value. *)
Definition keys_by_digits {K : Type} (digit : K → nat → nat) (len : K → nat)
    (range : list K) : Prop :=
  ∀ a b, a ∈ range → b ∈ range →
    key_digits digit len a = key_digits digit len b → a = b.

(** [std::sort] seen as a function on ranges, for the examples: a merge sort
    by the comparator. *)
Definition merge_sort_by {K : Type} (comp : Compare K) (l : list K) : list K :=
  merge_sort (in_order comp) l.

(** Byte strings with [size()], [operator[]] and [operator<]. *)
Definition byte_at (k : list byte) (i : nat) : byte := nth i k x00.
Definition byte_less : Compare (list byte) :=
  digit_lt (char_digit byte_at) length.
Definition byte_greater : Compare (list byte) :=
  digit_gt (char_digit byte_at) length.

(** The collaborators of the examples: helper threshold 2, split cap 8. *)
#[export] Instance byte_sort : Std_sort (list byte) :=
  model_sort byte_less merge_sort_by.
#[export] Instance byte_model : Detail (list byte) byte :=
  model length byte_at merge_sort_by 2 8.

(** Collaborators whose engine without functors reads the character it is
    handed: it sorts by radix when handed ['\0'], and by comparison when
    handed any other character. *)
Definition choosy_model : Detail (list byte) byte := {|
  engine := λ unused,
    if Byte.eqb unused x00 then engine (Detail := byte_model) unused
    else merge_sort_by byte_less;
  reverse_engine := reverse_engine (Detail := byte_model);
  engine_get := engine_get (Detail := byte_model);
  engine_get_comp := engine_get_comp (Detail := byte_model);
  reverse_engine_get_comp := reverse_engine_get_comp (Detail := byte_model)
|}.

(** Ranges of byte strings for the examples: ["b"; "a"], and ["b"; "a"]
    between two empty strings. *)
Definition two_keys : list (list byte) := [[x62]; [x61]].
Definition four_keys : list (list byte) := [[]; [x62]; [x61]; []].

(** ["ba"; "a"; the empty string; "b"], and the scenarios of the
    specification:
    ["banana"; "apple"; "band"; "ban"] and ["a"; "ab"; "b"]. *)
Definition prefix_keys : list (list byte) := [[x62; x61]; [x61]; []; [x62]].
Definition fruit_keys : list (list byte) :=
  [[x62; x61; x6e; x61; x6e; x61]; [x61; x70; x70; x6c; x65];
   [x62; x61; x6e; x64]; [x62; x61; x6e]].
Definition ab_keys : list (list byte) := [[x61]; [x61; x62]; [x62]].

(** ** How an entry point with functors ends *)

Section Endings.
Context {K C : Type}.

(** The four ways an overload with functors ends on a range: below the
    threshold in [small_call]; on an empty range at or above the threshold
    in a read outside the range; on keys of length 0 only in a return, after
    calls of [length] at the positions [ps], each in the range and none
    twice; and otherwise, after such calls of [length] and one call of
    [getchar] at offset 0 on a key of non-zero length at position [p], in
    [engine_call p] with the character read. *)
Definition ending (min_sort_size : Z) (range : list K)
    (getchar : Get_char K C) (length : Get_length K) (small_call : call K C)
    (engine_call : nat → C → call K C) (b : behaviour K C) : Prop :=
  ((Z.of_nat (List.length range) < min_sort_size)%Z ∧
   b = ([], delegated small_call)) ∨
  ((min_sort_size ≤ Z.of_nat (List.length range))%Z ∧ range = [] ∧
   b = ([], out_of_range)) ∨
  ((min_sort_size ≤ Z.of_nat (List.length range))%Z ∧ range ≠ [] ∧
   (∀ key, key ∈ range → length key = 0) ∧
   ∃ ps, NoDup ps ∧ Forall (λ q, q < List.length range) ps ∧
         b = (get_length <$> ps, returned)) ∨
  ((min_sort_size ≤ Z.of_nat (List.length range))%Z ∧
   ∃ ps p key,
     NoDup ps ∧ Forall (λ q, q < List.length range) ps ∧
     range !! p = Some key ∧ length key ≠ 0 ∧
     b = ((get_length <$> ps) ++ [get_char p 0],
          delegated (engine_call p (getchar key 0)))).

(** The entry point calls [getchar] at most once, and only at offset 0 of a
    key of the range whose length is not 0. *)
Definition getchar_at_key_start (range : list K) (length : Get_length K)
    (b : behaviour K C) : Prop :=
  (∀ a, a ∈ b.1 → is_get_char a = true →
     ∃ key, a = get_char (access_pos a) 0 ∧
            range !! access_pos a = Some key ∧ length key ≠ 0) ∧
  List.length (filter (λ a, is_get_char a = true) b.1) ≤ 1.

(** The entry point asks for the length of keys of the range only, and of
    no key twice; every functor call it makes is on a key of the range. *)
Definition lengths_read_once (range : list K) (b : behaviour K C) : Prop :=
  NoDup (access_pos <$> filter (λ a, is_get_char a = false) b.1) ∧
  Forall (λ a, access_pos a < List.length range) b.1.

(** The position [n - 1 - p] a functor call reads when the range of [n]
    keys is turned round. *)
Definition mirror_access (n : nat) (a : access) : access :=
  match a with
  | get_length p => get_length (n - 1 - p)
  | get_char p offset => get_char (n - 1 - p) offset
  end.

(** The ending of [reverse_string_sort] with functors that answers an
    ending of [string_sort] with functors and [comp] on the range turned
    round: an engine call on [first, last) becomes a call of the reverse
    engine on the [last - first] keys at the front, with the same
    arguments. *)
Definition mirror_outcome (o : outcome K C) : outcome K C :=
  match o with
  | delegated (detail_string_sort_get_comp first last getchar length comp
                 unused) =>
      delegated (detail_reverse_string_sort_get_comp 0 (last - first) getchar
                   length comp unused)
  | _ => o
  end.
End Endings.

(** The sub-range [first, last) a collaborator call is handed. *)
Definition call_range {K C : Type} (c : call K C) : nat * nat :=
  match c with
  | std_sort first last => (first, last)
  | std_sort_comp first last _ => (first, last)
  | detail_string_sort first last _ => (first, last)
  | detail_reverse_string_sort first last _ => (first, last)
  | detail_string_sort_get first last _ _ _ => (first, last)
  | detail_string_sort_get_comp first last _ _ _ _ => (first, last)
  | detail_reverse_string_sort_get_comp first last _ _ _ _ => (first, last)
  end.

(** The call an entry point ends in is on a sub-range of its range:
    [first] is not behind [last], and [last] not behind the end of the
    range. *)
Definition hands_on_inside {K C : Type} (range : list K)
    (b : behaviour K C) : Prop :=
  ∀ c, b.2 = delegated c →
    (call_range c).1 ≤ (call_range c).2 ∧ (call_range c).2 ≤ length range.

(** The collaborators only permute the range they are handed. *)
Definition sort_permutes (K : Type) `{!Std_sort K} : Prop :=
  ∀ comp l, sort_with comp l ≡ₚ l.

Definition engines_permute (K C : Type) `{!Detail K C} : Prop :=
  (∀ unused l, engine unused l ≡ₚ l) ∧
  (∀ unused l, reverse_engine unused l ≡ₚ l) ∧
  (∀ getchar length unused l, engine_get getchar length unused l ≡ₚ l) ∧
  (∀ getchar length comp unused l,
     engine_get_comp getchar length comp unused l ≡ₚ l) ∧
  (∀ getchar length comp unused l,
     reverse_engine_get_comp getchar length comp unused l ≡ₚ l).

(** * The entry points, whatever the collaborators *)

Section EntryPointFacts.
Context {K : Type}.
Variable min_sort_size : Z.

Lemma on_range_whole (f : list K → list K) (range : list K) :
  on_range f 0 (length range) range = f range.
Proof.
  unfold on_range. rewrite Nat.sub_0_r, drop_0, take_0, firstn_all.
  rewrite drop_ge by lia. simpl. by rewrite app_nil_r.
Qed.

Lemma on_range_suffix (f : list K → list K) (first : nat) (range : list K) :
  on_range f first (length range) range
  = take first range ++ f (drop first range).
Proof.
  unfold on_range. rewrite (drop_ge _ (length range)) by lia.
  rewrite app_nil_r. f_equal. f_equal. apply take_ge.
  rewrite length_drop. lia.
Qed.

Lemma too_small_true (range : list K) :
  too_small min_sort_size range = true
  ↔ (Z.of_nat (length range) < min_sort_size)%Z.
Proof. unfold too_small. apply Z.ltb_lt. Qed.

Lemma too_small_false (range : list K) :
  too_small min_sort_size range = false
  ↔ (min_sort_size ≤ Z.of_nat (length range))%Z.
Proof. unfold too_small. apply Z.ltb_ge. Qed.
End EntryPointFacts.

(** ** The scans for a key of non-zero length *)

Section Scans.
Context {K : Type}.
Variable length : Get_length K.

(** The forward scan reads the lengths of a leading run of empty keys and
    of the key that ends the run, if there is one. *)
Lemma skip_front_spec (first : nat) (rest : list K) :
  rest ≠ [] →
  ∃ skipped,
    (∀ i key, i < skipped → rest !! i = Some key → length key = 0) ∧
    match rest !! skipped with
    | None =>
        skipped = List.length rest ∧
        skip_front length first rest
        = (get_length <$> seq first skipped, scan_return)
    | Some key =>
        length key ≠ 0 ∧
        skip_front length first rest
        = (get_length <$> seq first (S skipped),
           scan_at (first + skipped) key)
    end.
Proof.
  revert first. induction rest as [|key rest' IH]; intros first Hne; [done|].
  simpl. destruct (Nat.eqb_spec (length key) 0) as [Hz|Hnz].
  - destruct rest' as [|key' rest''].
    + exists 1. split; [|done].
      intros [|i] k Hi Hk; [|lia]. by injection Hk as <-.
    + destruct (IH (S first)) as (skipped & Hrun & Hend); [done|].
      exists (S skipped). split.
      * intros [|i] k Hi Hk; [by injection Hk as <-|].
        apply (Hrun i); [lia|done].
      * change ((key :: key' :: rest'') !! S skipped)
          with ((key' :: rest'') !! skipped).
        destruct ((key' :: rest'') !! skipped) as [k|].
        -- destruct Hend as [Hk ->]. split; [done|].
           by rewrite Nat.add_succ_r.
        -- destruct Hend as [Hlen ->]. split; [|done].
           simpl in *. lia.
  - exists 0. split; [lia|]. simpl. split; [done|].
    by rewrite Nat.add_0_r.
Qed.

(** The backward scan reads the lengths from position [last - 1] down to
    the position where it stops: the last key of non-zero length, or the
    front of the range. *)
Lemma skip_back_spec (range : list K) (last : nat) :
  0 < last → last ≤ List.length range →
  ∃ stop key,
    stop < last ∧ range !! stop = Some key ∧
    (∀ i k, stop < i < last → range !! i = Some k → length k = 0) ∧
    (length key = 0 → stop = 0) ∧
    skip_back length range last
    = (get_length <$> reverse (seq stop (last - stop)),
       if length key =? 0 then scan_return else scan_at stop key).
Proof.
  induction last as [|last' IH]; intros Hpos Hle; [lia|].
  simpl. destruct (lookup_lt_is_Some_2 range last') as [key Hkey]; [lia|].
  rewrite Hkey. destruct (Nat.eqb_spec (length key) 0) as [Hz|Hnz].
  - destruct (Nat.eqb_spec last' 0) as [->|Hlast].
    + exists 0, key. split_and!; [lia|done|intros; lia|done|].
      by rewrite (proj2 (Nat.eqb_eq _ _) Hz).
    + destruct IH as (stop & key' & Hlt & Hstop & Hrun & Hfront & ->);
        [lia..|].
      exists stop, key'. split_and!; [lia|done| |done|].
      * intros i k Hi Hk. destruct (decide (i = last')) as [->|].
        -- congruence.
        -- apply (Hrun i); [lia|done].
      * replace (S last' - stop) with ((last' - stop) + 1) by lia.
        rewrite seq_app, reverse_app. simpl.
        by replace (stop + (last' - stop)) with last' by lia.
  - exists last', key. split_and!; [lia|done|intros; lia|done|].
    rewrite (proj2 (Nat.eqb_neq _ _) Hnz).
    by replace (S last' - last') with 1 by lia.
Qed.
End Scans.

(** ** Below the threshold *)

Section BelowThreshold.
Context {K C : Type} `{!Std_sort K, !Detail K C}.
Context (bytes : Detail K byte).
Variable min_sort_size : Z.

(** C2: below [detail::min_sort_size] each of the seven overloads makes no
    functor call and ends in [std::sort] on the whole range, with [comp]
    when it has one, so the sequence left behind is the one [std::sort]
    yields; no engine is called. *)
Theorem below_threshold_std_sort (range : list K) (comp : Compare K)
    (unused : C) (getchar : Get_char K C) (length : Get_length K) :
  (Z.of_nat (List.length range) < min_sort_size)%Z →
  let n := List.length range in
  ((string_sort_unused min_sort_size range unused
      = ([], delegated (std_sort 0 n)) ∧
    final (string_sort_unused min_sort_size range unused) range
      = Some (sort_with value_lt range)) ∧
   (string_sort min_sort_size range = ([], delegated (std_sort 0 n)) ∧
    final (string_sort min_sort_size range) range
      = Some (sort_with value_lt range)) ∧
   (string_sort_get min_sort_size range getchar length
      = ([], delegated (std_sort 0 n)) ∧
    final (string_sort_get min_sort_size range getchar length) range
      = Some (sort_with value_lt range))) ∧
  ((reverse_string_sort_unused min_sort_size range comp unused
      = ([], delegated (std_sort_comp 0 n comp)) ∧
    final (reverse_string_sort_unused min_sort_size range comp unused) range
      = Some (sort_with comp range)) ∧
   (reverse_string_sort min_sort_size range comp
      = ([], delegated (std_sort_comp 0 n comp)) ∧
    final (reverse_string_sort min_sort_size range comp) range
      = Some (sort_with comp range)) ∧
   (string_sort_get_comp min_sort_size range getchar length comp
      = ([], delegated (std_sort_comp 0 n comp)) ∧
    final (string_sort_get_comp min_sort_size range getchar length comp)
          range
      = Some (sort_with comp range)) ∧
   (reverse_string_sort_get_comp min_sort_size range getchar length comp
      = ([], delegated (std_sort_comp 0 n comp)) ∧
    final (reverse_string_sort_get_comp min_sort_size range getchar length
             comp) range
      = Some (sort_with comp range))).
Proof.
  intros Hsmall n. apply too_small_true in Hsmall.
  unfold string_sort, reverse_string_sort, string_sort_unused,
    reverse_string_sort_unused, string_sort_get, string_sort_get_comp,
    reverse_string_sort_get_comp, final.
  rewrite Hsmall. cbn [snd run_call]. subst n.
  rewrite !on_range_whole. split_and!; reflexivity.
Qed.
End BelowThreshold.

(** ** The comparator of [reverse_string_sort(first, last, comp, unused)] *)

Section ReverseUnused.
Context {K C : Type} `{!Std_sort K, !Detail K C}.
Variable min_sort_size : Z.

(** C8: at or above the threshold the overload calls
    [detail::reverse_string_sort(first, last, unused)], which receives no
    comparator: two comparators leave the same sequence behind. *)
Theorem reverse_unused_ignores_comp (range : list K)
    (comp1 comp2 : Compare K) (unused : C) :
  (min_sort_size ≤ Z.of_nat (length range))%Z →
  final (reverse_string_sort_unused min_sort_size range comp1 unused) range
  = final (reverse_string_sort_unused min_sort_size range comp2 unused)
          range ∧
  (reverse_string_sort_unused min_sort_size range comp1 unused).2
  = delegated (detail_reverse_string_sort 0 (length range) unused).
Proof.
  intros Hbig. apply too_small_false in Hbig.
  unfold reverse_string_sort_unused. by rewrite Hbig.
Qed.

End ReverseUnused.


(** ** At or above the threshold, with functors *)

Section AccessorOverloads.
Context {K C : Type} `{!Std_sort K, !Detail K C}.
Variable min_sort_size : Z.
Hypothesis min_sort_size_pos : (0 < min_sort_size)%Z.

Lemma get_length_no_getchar (l : list nat) :
  Forall (λ a, is_get_char a = false) (get_length <$> l).
Proof. apply Forall_fmap, Forall_true. done. Qed.

Lemma reverse_seq_S (j m : nat) :
  reverse (seq j (S m)) = (j + m) :: reverse (seq j m).
Proof. by rewrite seq_S, reverse_app. Qed.

(** C5: [string_sort] with functors, with or without [comp], skips the
    maximal leading run of keys of length 0.  When the run is the whole
    range it returns and the range is as before.  Otherwise it reads the
    digit at offset 0 of the first key of non-zero length and calls the
    engine on the rest of the range with that digit; the skipped
    positions keep their keys. *)
Theorem leading_empties_skipped (range : list K) (getchar : Get_char K C)
    (length : Get_length K) (comp : Compare K) :
  (min_sort_size ≤ Z.of_nat (List.length range))%Z →
  ∃ skipped,
    (∀ i key, i < skipped → range !! i = Some key → length key = 0) ∧
    match range !! skipped with
    | None =>
        skipped = List.length range ∧
        (let b := string_sort_get min_sort_size range getchar length in
         b.2 = returned ∧ final b range = Some range) ∧
        (let b :=
           string_sort_get_comp min_sort_size range getchar length comp in
         b.2 = returned ∧ final b range = Some range)
    | Some key =>
        length key ≠ 0 ∧
        (let b := string_sort_get min_sort_size range getchar length in
         b = ((get_length <$> seq 0 (S skipped)) ++ [get_char skipped 0],
              delegated
                (detail_string_sort_get skipped (List.length range)
                   getchar length (getchar key 0))) ∧
         final b range
         = Some (take skipped range
                 ++ engine_get getchar length (getchar key 0)
                      (drop skipped range))) ∧
        (let b :=
           string_sort_get_comp min_sort_size range getchar length comp in
         b = ((get_length <$> seq 0 (S skipped)) ++ [get_char skipped 0],
              delegated
                (detail_string_sort_get_comp skipped (List.length range)
                   getchar length comp (getchar key 0))) ∧
         final b range
         = Some (take skipped range
                 ++ engine_get_comp getchar length comp (getchar key 0)
                      (drop skipped range)))
    end.
Proof.
  intros Hbig. assert (range ≠ []) as Hne.
  { intros ->. simpl in Hbig. lia. }
  apply too_small_false in Hbig.
  destruct (skip_front_spec length 0 range Hne) as (skipped & Hrun & Hend).
  exists skipped. split; [done|].
  unfold string_sort_get, string_sort_get_comp. rewrite Hbig.
  destruct (range !! skipped) as [key|].
  - destruct Hend as [Hkey ->]. split; [done|].
    unfold final. cbn [fst snd run_call]. rewrite !on_range_suffix.
    split_and!; reflexivity.
  - destruct Hend as [Hlen ->]. split; [done|].
    split_and!; reflexivity.
Qed.

(** C4: [reverse_string_sort] with functors reads the length of the last
    key first and goes on towards the front while the keys are of length
    0.  Every position it reads lies in the range, and it never leaves
    the range at the front.  When the scan reaches the first key and that
    key is of length 0 too, it returns and the range is as before.
    Otherwise it calls the engine on the range up to and including the
    key where the scan stopped. *)
Theorem trailing_empties_skipped (range : list K) (getchar : Get_char K C)
    (length : Get_length K) (comp : Compare K) :
  (min_sort_size ≤ Z.of_nat (List.length range))%Z →
  let n := List.length range in
  let b :=
    reverse_string_sort_get_comp min_sort_size range getchar length comp in
  ∃ stop key,
    stop < n ∧ range !! stop = Some key ∧
    (∀ i k, stop < i < n → range !! i = Some k → length k = 0) ∧
    head b.1 = Some (get_length (n - 1)) ∧
    Forall (λ a, access_pos a < n) b.1 ∧
    b.2 ≠ out_of_range ∧
    if length key =? 0 then
      stop = 0 ∧
      b = (get_length <$> reverse (seq 0 n), returned) ∧
      final b range = Some range
    else
      b = ((get_length <$> reverse (seq stop (n - stop)))
             ++ [get_char stop 0],
           delegated
             (detail_reverse_string_sort_get_comp 0 (stop + 1)
                getchar length comp (getchar key 0))).
Proof.
  intros Hbig n b. assert (0 < n) as Hpos by (subst n; lia).
  apply too_small_false in Hbig.
  destruct (skip_back_spec length range n Hpos)
    as (stop & key & Hlt & Hkey & Hrun & Hfront & Hscan); [done|].
  exists stop, key.
  assert (Forall (λ a : access, access_pos a < n)
            (get_length <$> reverse (seq stop (n - stop)))) as Hpositions.
  { apply Forall_fmap, Forall_reverse, Forall_seq. simpl. lia. }
  assert (head (get_length <$> reverse (seq stop (n - stop)))
          = Some (get_length (n - 1))) as Hhead.
  { replace (n - stop) with (S (n - stop - 1)) by lia.
    rewrite reverse_seq_S. simpl. do 2 f_equal. lia. }
  subst b. unfold reverse_string_sort_get_comp. rewrite Hbig.
  fold n. rewrite Hscan.
  destruct (Nat.eqb_spec (length key) 0) as [Hz|Hnz].
  - specialize (Hfront Hz). subst stop. rewrite Nat.sub_0_r in *.
    by split_and!.
  - split_and!; try done.
    + simpl. destruct (get_length <$> reverse (seq stop (n - stop)));
        [done|]. simpl in *. done.
    + simpl. apply Forall_app. split; [done|].
      apply Forall_singleton. simpl. lia.
Qed.

(** C10: when every key of the range is of length 0, the three overloads
    with functors return without a call of [getchar] and without a call
    of a collaborator, and the range is as before. *)
Theorem all_empty_untouched (range : list K) (getchar : Get_char K C)
    (length : Get_length K) (comp : Compare K) :
  (min_sort_size ≤ Z.of_nat (List.length range))%Z →
  (∀ key, key ∈ range → length key = 0) →
  (let b := string_sort_get min_sort_size range getchar length in
   b.2 = returned ∧ final b range = Some range ∧ no_getchar b) ∧
  (let b :=
     string_sort_get_comp min_sort_size range getchar length comp in
   b.2 = returned ∧ final b range = Some range ∧ no_getchar b) ∧
  (let b :=
     reverse_string_sort_get_comp min_sort_size range getchar length comp in
   b.2 = returned ∧ final b range = Some range ∧ no_getchar b).
Proof.
  intros Hbig Hempty.
  assert (0 < List.length range) as Hpos by lia.
  assert (range ≠ []) as Hne by (intros ->; simpl in Hpos; lia).
  apply too_small_false in Hbig.
  unfold string_sort_get, string_sort_get_comp,
    reverse_string_sort_get_comp, no_getchar.
  rewrite Hbig.
  destruct (skip_front_spec length 0 range Hne) as (skipped & _ & Hend).
  destruct (skip_back_spec length range (List.length range) Hpos)
    as (stop & key & _ & Hkey & _ & _ & ->); [done|].
  rewrite (proj2 (Nat.eqb_eq _ _)
             (Hempty key (list_elem_of_lookup_2 _ _ _ Hkey))).
  destruct (range !! skipped) as [key'|] eqn:Hkey'.
  - destruct Hend as [Hnz _]. destruct Hnz.
    apply Hempty. by eapply list_elem_of_lookup_2.
  - destruct Hend as [_ ->]. unfold final. cbn [fst snd].
    split_and!; try done; apply get_length_no_getchar.
Qed.
End AccessorOverloads.

(** ** The entry points on examples *)

(** Why the threshold has to be positive: were [detail::min_sort_size] zero,
    the overloads with functors would read the length of a key that an
    empty range does not have. *)
Example empty_range_without_threshold :
  (string_sort_get 0 [] byte_at length).2 = out_of_range ∧
  (reverse_string_sort_get_comp 0 [] byte_at length byte_greater).2
  = out_of_range.
Proof. split; reflexivity. Qed.

(** On ["b"; "a"] between two empty strings the scan from the front stops
    at position 1, the scan from the back at position 2. *)
Example four_keys_front :
  string_sort_get 2 four_keys byte_at length
  = ([get_length 0; get_length 1; get_char 1 0],
     delegated (detail_string_sort_get 1 4 byte_at length x62)).
Proof. reflexivity. Qed.

Example four_keys_back :
  reverse_string_sort_get_comp 2 four_keys byte_at length byte_greater
  = ([get_length 3; get_length 2; get_char 2 0],
     delegated
       (detail_reverse_string_sort_get_comp 0 3 byte_at length byte_greater
          x61)).
Proof. reflexivity. Qed.

Lemma below_threshold_std_sort_witness :
  (Z.of_nat (length two_keys) < 1000)%Z ∧
  final (string_sort 1000 two_keys) two_keys = Some [[x61]; [x62]] ∧
  final (reverse_string_sort 1000 two_keys byte_greater) two_keys
  = Some [[x62]; [x61]].
Proof.
  assert ((Z.of_nat (length two_keys) < 1000)%Z) as Hsmall by reflexivity.
  pose proof (below_threshold_std_sort byte_model 1000 two_keys byte_greater
                x00 (λ k i, byte_at k i) length Hsmall) as [Hplain Hcomp].
  split; [exact Hsmall|]. split.
  - exact (proj2 (proj1 (proj2 Hplain))).
  - exact (proj2 (proj1 (proj2 Hcomp))).
Defined.

Lemma reverse_unused_ignores_comp_witness :
  (2 ≤ Z.of_nat (length two_keys))%Z ∧
  final (reverse_string_sort_unused 2 two_keys byte_less x00) two_keys
  = final (reverse_string_sort_unused 2 two_keys byte_greater x00) two_keys.
Proof.
  assert ((2 ≤ Z.of_nat (length two_keys))%Z) as Hbig by (by vm_compute).
  split; [exact Hbig|].
  exact (proj1 (reverse_unused_ignores_comp 2 two_keys byte_less byte_greater
                  x00 Hbig)).
Defined.

Lemma leading_empties_skipped_witness :
  (0 < 2)%Z ∧ (2 ≤ Z.of_nat (length four_keys))%Z ∧
  ∃ skipped,
    (∀ i key, i < skipped → four_keys !! i = Some key → length key = 0) ∧
    match four_keys !! skipped with
    | None => skipped = length four_keys
    | Some key =>
        length key ≠ 0 ∧
        string_sort_get 2 four_keys byte_at length
        = ((get_length <$> seq 0 (S skipped)) ++ [get_char skipped 0],
           delegated
             (detail_string_sort_get skipped (length four_keys) byte_at
                length (byte_at key 0)))
    end.
Proof.
  assert ((0 < 2)%Z) as Hpos by reflexivity.
  assert ((2 ≤ Z.of_nat (length four_keys))%Z) as Hbig by (by vm_compute).
  split; [exact Hpos|]. split; [exact Hbig|].
  destruct (leading_empties_skipped 2 Hpos four_keys byte_at length byte_less
              Hbig) as (skipped & Hrun & Hend).
  exists skipped. split; [exact Hrun|].
  destruct (four_keys !! skipped) as [key|].
  - exact (conj (proj1 Hend) (proj1 (proj1 (proj2 Hend)))).
  - exact (proj1 Hend).
Defined.

Lemma trailing_empties_skipped_witness :
  (0 < 2)%Z ∧ (2 ≤ Z.of_nat (length four_keys))%Z ∧
  head (reverse_string_sort_get_comp 2 four_keys byte_at length
          byte_greater).1
  = Some (get_length 3) ∧
  (reverse_string_sort_get_comp 2 four_keys byte_at length byte_greater).2
  ≠ out_of_range.
Proof.
  assert ((0 < 2)%Z) as Hpos by reflexivity.
  assert ((2 ≤ Z.of_nat (length four_keys))%Z) as Hbig by (by vm_compute).
  split; [exact Hpos|]. split; [exact Hbig|].
  destruct (trailing_empties_skipped 2 Hpos four_keys byte_at length
              byte_greater Hbig)
    as (stop & key & _ & _ & _ & Hhead & _ & Hin & _).
  exact (conj Hhead Hin).
Defined.

Lemma all_empty_untouched_witness :
  (0 < 2)%Z ∧ (2 ≤ Z.of_nat (length [[]; []; [] : list byte]))%Z ∧
  (∀ key : list byte, key ∈ [[]; []; [] : list byte] → length key = 0) ∧
  final (reverse_string_sort_get_comp 2 [[]; []; []] byte_at length
           byte_greater) [[]; []; []]
  = Some [[]; []; []].
Proof.
  assert ((0 < 2)%Z) as Hpos by reflexivity.
  assert ((2 ≤ Z.of_nat (length [[]; []; [] : list byte]))%Z) as Hbig
    by (by vm_compute).
  assert (∀ key : list byte, key ∈ [[]; []; [] : list byte] → length key = 0)
    as Hempty.
  { intros key Hkey. apply list_elem_of_In in Hkey. simpl in Hkey.
    by destruct Hkey as [<-|[<-|[<-|[]]]]. }
  split; [exact Hpos|]. split; [exact Hbig|]. split; [exact Hempty|].
  exact (proj1 (proj2 (proj2 (proj2
    (all_empty_untouched 2 Hpos [[]; []; []] byte_at length byte_greater
       Hbig Hempty))))).
Defined.

(** * The engine sorts *)

(** ** The digit order *)

Lemma lex_lt_nil_r (a : list nat) : lex_lt a [] = false.
Proof. by destruct a. Qed.

Lemma lex_lt_irrefl (a : list nat) : lex_lt a a = false.
Proof.
  induction a as [|x a IH]; [done|]. simpl.
  rewrite Nat.ltb_irrefl, Nat.eqb_refl. done.
Qed.

Lemma lex_lt_cons (x y : nat) (a b : list nat) :
  lex_lt (x :: a) (y :: b) = true ↔ x < y ∨ (x = y ∧ lex_lt a b = true).
Proof.
  simpl. rewrite orb_true_iff, andb_true_iff, Nat.ltb_lt, Nat.eqb_eq. done.
Qed.

Lemma lex_lt_trans (a b c : list nat) :
  lex_lt a b = true → lex_lt b c = true → lex_lt a c = true.
Proof.
  revert b c. induction a as [|x a IH]; intros [|y b] [|z c]; try done.
  rewrite !lex_lt_cons. intros [Hxy|[-> Hab]] [Hyz|[-> Hbc]].
  - left. lia.
  - by left.
  - by left.
  - right. split; [done|]. by apply (IH b).
Qed.

Lemma lex_lt_asym (a b : list nat) :
  lex_lt a b = true → lex_lt b a = false.
Proof.
  intros Hab. destruct (lex_lt b a) eqn:Hba; [|done].
  by rewrite <- (lex_lt_irrefl a), (lex_lt_trans a b a).
Qed.

Lemma lex_lt_total (a b : list nat) :
  lex_lt a b = false → lex_lt b a = false → a = b.
Proof.
  revert b. induction a as [|x a IH]; intros [|y b]; try done.
  simpl. rewrite !orb_false_iff, !andb_false_iff, !Nat.ltb_ge, !Nat.eqb_neq.
  intros [Hyx Hab] [Hxy Hba]. assert (x = y) as -> by lia.
  f_equal. apply IH; [by destruct Hab|by destruct Hba].
Qed.

Lemma lex_lt_app (p a b : list nat) :
  lex_lt (p ++ a) (p ++ b) = lex_lt a b.
Proof.
  induction p as [|x p IH]; [done|]. simpl.
  by rewrite Nat.ltb_irrefl, Nat.eqb_refl, IH.
Qed.

(** An extension never comes before its prefix. *)
Lemma lex_lt_prefix (p a : list nat) : lex_lt (p ++ a) p = false.
Proof.
  rewrite <- (app_nil_r p) at 2. rewrite lex_lt_app. apply lex_lt_nil_r.
Qed.

Section DigitOrderFacts.
Context {K : Type}.
Variable digit : K → nat → nat.
Variable len : K → nat.

Lemma key_digits_split (offset : nat) (k : K) :
  offset ≤ len k →
  key_digits digit len k
  = (digit k <$> seq 0 offset) ++ (digit k <$> seq offset (len k - offset)).
Proof.
  intros Hle. unfold key_digits. rewrite <- fmap_app, <- seq_app.
  do 2 f_equal. lia.
Qed.

Lemma agree_prefix (offset : nat) (a b : K) :
  agree digit offset a b → digit a <$> seq 0 offset = digit b <$> seq 0 offset.
Proof.
  intros Hagree. apply list_fmap_ext. intros i j Hj.
  apply lookup_seq in Hj as [-> Hi]. by apply Hagree.
Qed.

Lemma agree_S (offset : nat) (a b : K) :
  agree digit offset a b → digit a offset = digit b offset →
  agree digit (S offset) a b.
Proof.
  intros Hagree Heq i Hi. destruct (decide (i = offset)) as [->|]; [done|].
  apply Hagree. lia.
Qed.

(** A key that ends at the offset is not after a key with the same digits
    below the offset. *)
Lemma terminal_first (offset : nat) (a b : K) :
  len a = offset → offset ≤ len b → agree digit offset a b →
  lex_lt (key_digits digit len b) (key_digits digit len a) = false.
Proof.
  intros Ha Hb Hagree.
  rewrite (key_digits_split offset a), (key_digits_split offset b) by lia.
  rewrite (agree_prefix offset a b Hagree), Ha, Nat.sub_diag. simpl.
  rewrite app_nil_r. apply lex_lt_prefix.
Qed.

(** Of two keys with the same digits below the offset, the one with the
    smaller digit at the offset is first. *)
Lemma smaller_digit_first (offset : nat) (a b : K) :
  offset < len a → offset < len b → agree digit offset a b →
  digit a offset < digit b offset →
  lex_lt (key_digits digit len b) (key_digits digit len a) = false.
Proof.
  intros Ha Hb Hagree Hlt. apply lex_lt_asym.
  rewrite (key_digits_split offset a), (key_digits_split offset b) by lia.
  rewrite (agree_prefix offset a b Hagree), lex_lt_app.
  replace (len a - offset) with (S (len a - offset - 1)) by lia.
  replace (len b - offset) with (S (len b - offset - 1)) by lia.
  simpl. apply orb_true_iff. left. by apply Nat.ltb_lt.
Qed.

Lemma digit_lt_swo : strict_weak_order (digit_lt digit len).
Proof.
  unfold digit_lt. split.
  - intros a. apply lex_lt_irrefl.
  - intros a b c. apply lex_lt_trans.
  - intros a b c Hab Hba Hbc Hcb.
    rewrite (lex_lt_total _ _ Hab Hba), (lex_lt_total _ _ Hbc Hcb).
    by rewrite lex_lt_irrefl.
Qed.

Lemma digit_gt_swo : strict_weak_order (digit_gt digit len).
Proof.
  destruct digit_lt_swo as [Hirr Htrans Hinc]. unfold digit_gt. split.
  - done.
  - intros a b c Hab Hbc. by apply (Htrans c b a).
  - intros a b c Hab Hba Hbc Hcb.
    destruct (Hinc c b a) as [? ?]; done.
Qed.

Lemma swo_ext (comp comp' : Compare K) :
  (∀ a b, comp a b = comp' a b) →
  strict_weak_order comp' → strict_weak_order comp.
Proof.
  intros Hext [Hirr Htrans Hinc]. split.
  - intros a. by rewrite Hext.
  - intros a b c. rewrite !Hext. apply Htrans.
  - intros a b c. rewrite !Hext. apply Hinc.
Qed.
End DigitOrderFacts.

(** ** Counters, boundaries and swaps *)

Section Arrays.
Context {A : Type}.

Lemma sum_list_take_S (l : list nat) (b c : nat) :
  l !! b = Some c → sum_list (take (S b) l) = sum_list (take b l) + c.
Proof.
  intros Hb. rewrite (take_S_r _ _ _ Hb), sum_list_with_app. simpl. lia.
Qed.

Lemma sum_list_take_mono (l : list nat) (b c : nat) :
  b ≤ c → sum_list (take b l) ≤ sum_list (take c l).
Proof.
  intros Hle. replace c with (b + (c - b)) by lia.
  rewrite <- take_take_drop, sum_list_with_app. lia.
Qed.

Lemma sum_list_take_le (l : list nat) (b : nat) :
  sum_list (take b l) ≤ sum_list l.
Proof.
  rewrite <- (take_drop b l) at 2. rewrite sum_list_with_app. lia.
Qed.

Lemma sum_list_insert (l : list nat) (i x y : nat) :
  l !! i = Some x → sum_list (<[i:=y]> l) + x = sum_list l + y.
Proof.
  revert i. induction l as [|z l IH]; intros [|i] Hi; try done; simpl in *.
  - injection Hi as ->. lia.
  - specialize (IH i Hi). lia.
Qed.

Lemma sum_list_alter_S (l : list nat) (i : nat) :
  i < length l → sum_list (alter S i l) = S (sum_list l).
Proof.
  revert i. induction l as [|z l IH]; intros [|i] Hi; simpl in *; try lia.
  specialize (IH i). unfold alter in IH. rewrite IH by lia. lia.
Qed.

Lemma sum_list_pointwise (l1 l2 : list nat) :
  Forall2 le l1 l2 → sum_list l1 ≤ sum_list l2.
Proof. induction 1; simpl; lia. Qed.

Lemma insert_Permutation (l : list A) (i : nat) (x y : A) :
  l !! i = Some y → y :: <[i:=x]> l ≡ₚ x :: l.
Proof.
  revert i. induction l as [|z l IH]; intros [|i] Hi; try done; simpl in *.
  - injection Hi as ->. apply perm_swap.
  - rewrite perm_swap, (IH i Hi). apply perm_swap.
Qed.

Lemma filter_all (P : A → Prop) `{∀ x, Decision (P x)} (l : list A) :
  Forall P l → filter P l = l.
Proof.
  induction 1 as [|x l Hx Hl IH]; [done|].
  by rewrite filter_cons_True, IH.
Qed.

Lemma filter_elem_length (P : A → Prop) `{∀ x, Decision (P x)}
    (l : list A) (x : A) :
  x ∈ l → P x → 0 < length (filter P l).
Proof.
  intros Hx HP. assert (x ∈ filter P l) as Hin by by apply list_elem_of_filter.
  destruct (filter P l); [by apply not_elem_of_nil in Hin|simpl; lia].
Qed.

Lemma StronglySorted_pairwise (R : relation A) (l : list A) :
  (∀ x y, x ∈ l → y ∈ l → R x y) → StronglySorted R l.
Proof.
  induction l as [|x l IH]; intros Hall; constructor.
  - apply IH. intros y z Hy Hz. apply Hall; by right.
  - apply Forall_forall. intros y Hy. apply Hall; [left|by right].
Qed.

Lemma elem_of_concat (ls : list (list A)) (x : A) :
  x ∈ concat ls ↔ ∃ i l, ls !! i = Some l ∧ x ∈ l.
Proof.
  rewrite list_elem_of_In, in_concat. split.
  - intros (l & Hl & Hx). apply list_elem_of_In, list_elem_of_lookup in Hl.
    destruct Hl as [i Hi]. exists i, l. by rewrite list_elem_of_In.
  - intros (i & l & Hi & Hx). exists l. rewrite <- !list_elem_of_In.
    split; [by eapply list_elem_of_lookup_2|done].
Qed.

Lemma StronglySorted_concat (R : relation A) (ls : list (list A)) :
  Forall (StronglySorted R) ls →
  (∀ i j li lj x y, i < j → ls !! i = Some li → ls !! j = Some lj →
                    x ∈ li → y ∈ lj → R x y) →
  StronglySorted R (concat ls).
Proof.
  induction 1 as [|l ls Hl Hls IH]; intros Hcross; [constructor|].
  simpl. apply StronglySorted_app; split_and!.
  - intros x y Hx Hy. apply elem_of_concat in Hy as (j & lj & Hj & Hy).
    apply (Hcross 0 (S j) l lj); [lia|done..].
  - done.
  - apply IH. intros i j li lj x y Hij Hi Hj.
    apply (Hcross (S i) (S j)); [lia|done..].
Qed.
End Arrays.

Lemma bin_starts_length (start : nat) (counts : list nat) :
  length (bin_starts start counts) = length counts.
Proof.
  revert start. induction counts as [|c counts IH]; intros start; [done|].
  simpl. by rewrite IH.
Qed.

Lemma bin_ends_length (start : nat) (counts : list nat) :
  length (bin_ends start counts) = length counts.
Proof.
  revert start. induction counts as [|c counts IH]; intros start; [done|].
  simpl. by rewrite IH.
Qed.

(** A bucket starts where the buckets before it end. *)
Lemma bin_starts_lookup (start : nat) (counts : list nat) (b : nat) :
  b < length counts →
  bin_starts start counts !! b = Some (start + sum_list (take b counts)).
Proof.
  revert start b. induction counts as [|c counts IH]; intros start [|b] Hb;
    simpl in *; try lia.
  - by rewrite Nat.add_0_r.
  - rewrite IH by lia. f_equal. lia.
Qed.

Lemma bin_ends_lookup (start : nat) (counts : list nat) (b : nat) :
  b < length counts →
  bin_ends start counts !! b = Some (start + sum_list (take (S b) counts)).
Proof.
  revert start b. induction counts as [|c counts IH]; intros start [|b] Hb;
    simpl in *; try lia.
  - f_equal. lia.
  - rewrite IH by lia. f_equal. lia.
Qed.

Lemma bin_ends_sum (start : nat) (counts : list nat) :
  sum_list (bin_ends start counts)
  = sum_list (bin_starts start counts) + sum_list counts.
Proof.
  revert start. induction counts as [|c counts IH]; intros start; [done|].
  simpl. rewrite IH. lia.
Qed.

Section Swap.
Context {K : Type}.

Lemma swap_length (arr : list K) (i j : nat) :
  length (swap arr i j) = length arr.
Proof.
  unfold swap. destruct (arr !! i), (arr !! j); try done.
  by rewrite !length_insert.
Qed.

Lemma swap_Permutation (arr : list K) (i j : nat) : swap arr i j ≡ₚ arr.
Proof.
  unfold swap. destruct (arr !! i) as [x|] eqn:Hi; [|done].
  destruct (arr !! j) as [y|] eqn:Hj; [|done].
  destruct (decide (i = j)) as [->|Hne].
  - assert (x = y) as -> by congruence.
    by rewrite list_insert_insert_eq, list_insert_id.
  - apply (Permutation_cons_inv (a:=y)).
    rewrite insert_Permutation
      by (by rewrite list_lookup_insert_ne by done).
    by rewrite insert_Permutation.
Qed.

Lemma swap_lookup_other (arr : list K) (i j m : nat) :
  m ≠ i → m ≠ j → swap arr i j !! m = arr !! m.
Proof.
  intros Hi Hj. unfold swap. destruct (arr !! i), (arr !! j); try done.
  by rewrite !list_lookup_insert_ne by done.
Qed.

Lemma swap_lookup_r (arr : list K) (i j : nat) (x y : K) :
  arr !! i = Some x → arr !! j = Some y → swap arr i j !! j = Some x.
Proof.
  intros Hi Hj. unfold swap. rewrite Hi, Hj.
  apply list_lookup_insert_eq. rewrite length_insert.
  by eapply lookup_lt_Some.
Qed.
End Swap.

Section Tally.
Context {K : Type}.
Variable radix : nat.
Variable digit : K → nat → nat.
Variable reverse : bool.
Variable offset : nat.

Local Abbreviation bin := (bin_of radix digit reverse offset).
Local Abbreviation count b l := (length (filter (λ k, bin k = b) l)).

Lemma tally_fold_length (counts : list nat) (keys : list K) :
  length (foldl (λ counts k, alter S (bin k) counts) counts keys)
  = length counts.
Proof.
  revert counts. induction keys as [|k keys IH]; intros counts; [done|].
  simpl. by rewrite IH, length_alter.
Qed.

Lemma tally_length (keys : list K) :
  length (tally radix digit reverse offset keys) = radix.
Proof. unfold tally. by rewrite tally_fold_length, length_replicate. Qed.

Lemma tally_fold_lookup (counts : list nat) (keys : list K) (b c : nat) :
  counts !! b = Some c →
  foldl (λ counts k, alter S (bin k) counts) counts keys !! b
  = Some (c + count b keys).
Proof.
  revert counts c. induction keys as [|k keys IH]; intros counts c Hb.
  - simpl. by rewrite Nat.add_0_r.
  - simpl. destruct (decide (bin k = b)) as [Heq|Hne].
    + rewrite filter_cons_True by done. simpl.
      rewrite (IH _ (S c)); [f_equal; lia|].
      by rewrite Heq, list_lookup_alter_eq, Hb.
    + rewrite filter_cons_False by done.
      apply IH. by rewrite list_lookup_alter_ne.
Qed.

(** The counting pass counts: every counter holds the number of keys of its
    bucket. *)
Lemma tally_lookup (keys : list K) (b : nat) :
  b < radix →
  tally radix digit reverse offset keys !! b = Some (count b keys).
Proof.
  intros Hb. unfold tally.
  by rewrite (tally_fold_lookup _ _ b 0) by by apply lookup_replicate_2.
Qed.

Lemma tally_fold_sum (counts : list nat) (keys : list K) :
  (∀ k, k ∈ keys → bin k < length counts) →
  sum_list (foldl (λ counts k, alter S (bin k) counts) counts keys)
  = sum_list counts + length keys.
Proof.
  revert counts. induction keys as [|k keys IH]; intros counts Hbins.
  - simpl. lia.
  - simpl. rewrite IH.
    + rewrite sum_list_alter_S by (apply Hbins; left). lia.
    + intros k' Hk'. rewrite length_alter. apply Hbins. by right.
Qed.

Lemma tally_sum (keys : list K) :
  (∀ k, k ∈ keys → bin k < radix) →
  sum_list (tally radix digit reverse offset keys) = length keys.
Proof.
  intros Hbins. unfold tally. rewrite tally_fold_sum.
  - by rewrite sum_list_replicate, Nat.mul_0_r.
  - by rewrite length_replicate.
Qed.
End Tally.

(** ** The counting permutation *)

Section Permute.
Context {K : Type}.
Variable radix : nat.
Variable digit : K → nat → nat.
Variable reverse : bool.
Variable offset : nat.

Local Abbreviation bin := (bin_of radix digit reverse offset).
Local Abbreviation count b l := (length (filter (λ k, bin k = b) l)).
Local Abbreviation placing := (placing radix digit reverse offset).

(** The keys to place and their counters. *)
Variable arr0 : list K.
Variable counts : list nat.
Hypothesis counts_length : length counts = radix.
Hypothesis counts_count : ∀ b, b < radix → counts !! b = Some (count b arr0).
Hypothesis counts_sum : sum_list counts = length arr0.
Hypothesis bins_lt : ∀ k, k ∈ arr0 → bin k < radix.

Local Abbreviation s b := (sum_list (take b counts)).

(** Two buckets do not overlap: the earlier one ends before the later one
    starts. *)
Local Ltac apart b t :=
  destruct (decide (b < t));
  [pose proof (sum_list_take_mono counts (S b) t)
  |pose proof (sum_list_take_mono counts (S t) b)];
  lia.

(** A key that is not at home finds a free slot in its own bucket. *)
Lemma placing_room (cur : nat) (next : list nat) (arr : list K)
    (b t p q : nat) (k : K) :
  arr ≡ₚ arr0 → placing counts cur next arr →
  next !! b = Some p → p < s (S b) → arr !! p = Some k →
  bin k = t → t ≠ b → next !! t = Some q →
  q < s (S t).
Proof.
  intros Harr [Hlen Hbounds Hhome _] Hb Hp Hk Hbin Hne Ht.
  pose proof (Hbounds _ _ Hb) as Hpb. pose proof (Hbounds _ _ Ht) as Hqb.
  assert (t < radix) as Htr.
  { rewrite <- counts_length, <- Hlen. by eapply lookup_lt_Some. }
  pose proof (counts_count t Htr) as Hc.
  set (c := count t arr0) in *.
  pose proof (sum_list_take_S _ _ _ Hc) as HS.
  destruct (decide (q < s (S t))) as [|Hfull]; [done|exfalso].
  assert (q = s t + c) as -> by lia.
  assert (s t + c ≤ length arr) as Hfit.
  { rewrite Harr, <- counts_sum, <- HS. apply sum_list_take_le. }
  set (M := take c (drop (s t) arr)).
  assert (arr = take (s t) arr ++ M ++ drop (s t + c) arr) as Hsplit.
  { subst M. rewrite <- (drop_drop arr c (s t)), take_drop.
    by rewrite take_drop. }
  assert (count t M = c) as HM.
  { rewrite filter_all.
    - subst M. rewrite length_take, length_drop. lia.
    - apply Forall_lookup. intros i x Hi. subst M.
      assert (i < c) as Hic.
      { apply lookup_lt_Some in Hi. rewrite length_take in Hi. lia. }
      rewrite lookup_take_lt, lookup_drop in Hi by done.
      apply (Hhome t (s t + c) (s t + i) x); [done|lia|done]. }
  assert (count t arr = c) as Hcount by (by rewrite Harr).
  rewrite Hsplit, !filter_app, !length_app, HM in Hcount.
  assert (p < s t ∨ s t + c ≤ p) as [Hlow|Hhigh] by apart b t.
  - assert (0 < count t (take (s t) arr)); [|lia].
    apply (filter_elem_length _ _ k); [|done].
    apply elem_of_take. by exists p.
  - assert (0 < count t (drop (s t + c) arr)); [|lia].
    apply (filter_elem_length _ _ k); [|done].
    apply (list_elem_of_lookup_2 _ (p - (s t + c))).
    rewrite lookup_drop. by replace (s t + c + (p - (s t + c))) with p by lia.
Qed.

(** The key in the free slot of the current bucket is at home. *)
Lemma placing_home_step (cur : nat) (next : list nat) (arr : list K)
    (p : nat) (k : K) :
  placing counts cur next arr →
  next !! cur = Some p → p < s (S cur) → arr !! p = Some k → bin k = cur →
  placing counts cur (<[cur:=S p]> next) arr.
Proof.
  intros [Hlen Hbounds Hhome Hdone] Hcur Hp Hk Hbin.
  pose proof (Hbounds _ _ Hcur) as Hpb. split.
  - by rewrite length_insert.
  - intros b p' Hb. apply list_lookup_insert_Some in Hb as [(<- & <- & _)|[_ Hb]].
    + lia.
    + by apply Hbounds.
  - intros b p' i k' Hb Hi Hk'.
    apply list_lookup_insert_Some in Hb as [(<- & <- & _)|[_ Hb]].
    + destruct (decide (i = p)) as [->|]; [congruence|].
      apply (Hhome cur p i); [done|lia|done].
    + by apply (Hhome b p' i).
  - intros b Hb Hbr. rewrite list_lookup_insert_ne by lia. by apply Hdone.
Qed.

(** The key in the free slot of the current bucket goes to the free slot of
    its own bucket. *)
Lemma placing_swap_step (cur : nat) (next : list nat) (arr : list K)
    (t p q : nat) (k : K) :
  arr ≡ₚ arr0 → placing counts cur next arr →
  next !! cur = Some p → p < s (S cur) → arr !! p = Some k →
  bin k = t → t ≠ cur → next !! t = Some q →
  placing counts cur (<[t:=S q]> next) (swap arr p q).
Proof.
  intros Harr Hplacing Hcur Hp Hk Hbin Hne Ht.
  pose proof (placing_room _ _ _ _ _ _ _ _ Harr Hplacing Hcur Hp Hk Hbin Hne
                Ht) as Hq.
  destruct Hplacing as [Hlen Hbounds Hhome Hdone].
  pose proof (Hbounds _ _ Hcur) as Hpb. pose proof (Hbounds _ _ Ht) as Hqb.
  assert (t < length counts) as Htr.
  { rewrite <- Hlen. by eapply lookup_lt_Some. }
  assert (cur < length counts) as Hcr.
  { rewrite <- Hlen. by eapply lookup_lt_Some. }
  assert (q < length arr) as Hqlen.
  { rewrite Harr, <- counts_sum.
    pose proof (sum_list_take_le counts (S t)). lia. }
  destruct (lookup_lt_is_Some_2 arr q Hqlen) as [y Hy].
  assert (∀ b p' i, next !! b = Some p' → s b ≤ i < p' → i ≠ p ∧ i ≠ q)
    as Hapart.
  { intros b p' i Hb Hi. pose proof (Hbounds _ _ Hb) as Hib.
    destruct (decide (b = cur)) as [->|Hbc].
    - assert (p' = p) as -> by congruence. split; [lia|apart cur t].
    - destruct (decide (b = t)) as [->|Hbt].
      + assert (p' = q) as -> by congruence. split; [apart cur t|lia].
      + split; [apart b cur|apart b t]. }
  split.
  - by rewrite length_insert.
  - intros b p' Hb. apply list_lookup_insert_Some in Hb as [(<- & <- & _)|[_ Hb]].
    + lia.
    + by apply Hbounds.
  - intros b p' i k' Hb Hi Hk'.
    apply list_lookup_insert_Some in Hb as [(<- & <- & _)|[Htb Hb]].
    + destruct (decide (i = q)) as [->|Hiq].
      * rewrite (swap_lookup_r arr p q k y) in Hk' by done. congruence.
      * destruct (Hapart t q i) as [Hip _]; [done|lia|].
        rewrite swap_lookup_other in Hk' by done.
        apply (Hhome t q i); [done|lia|done].
    + destruct (Hapart b p' i) as [Hip Hiq]; [done..|].
      rewrite swap_lookup_other in Hk' by done. by apply (Hhome b p' i).
  - intros b Hb Hbr. rewrite list_lookup_insert_ne; [by apply Hdone|].
    intros <-. rewrite (Hdone t Hb Hbr) in Ht. injection Ht as <-. lia.
Qed.

(** The free slot of the current bucket reached the end of the bucket. *)
Lemma placing_next_bin (cur : nat) (next : list nat) (arr : list K)
    (p : nat) :
  placing counts cur next arr →
  next !! cur = Some p → ¬ p < s (S cur) →
  placing counts (S cur) next arr.
Proof.
  intros [Hlen Hbounds Hhome Hdone] Hcur Hp.
  pose proof (Hbounds _ _ Hcur) as Hpb. split; try done.
  intros b Hb Hbr. destruct (decide (b = cur)) as [->|].
  - rewrite Hcur. f_equal. lia.
  - apply Hdone; [lia|done].
Qed.

Lemma placing_le (cur cur' : nat) (next : list nat) (arr : list K) :
  cur' ≤ cur → placing counts cur next arr → placing counts cur' next arr.
Proof.
  intros Hle [Hlen Hbounds Hhome Hdone]. split; try done.
  intros b Hb Hbr. apply Hdone; [lia|done].
Qed.

Lemma placing_sum (cur : nat) (next : list nat) (arr : list K) :
  placing counts cur next arr →
  sum_list next ≤ sum_list (bin_ends 0 counts).
Proof.
  intros [Hlen Hbounds _ _]. apply sum_list_pointwise.
  apply Forall2_same_length_lookup_2.
  - by rewrite bin_ends_length.
  - intros b p e Hb He. pose proof (Hbounds _ _ Hb) as Hpb.
    rewrite bin_ends_lookup in He.
    + injection He as <-. simpl. lia.
    + rewrite <- Hlen. by eapply lookup_lt_Some.
Qed.

(** With fuel for every key and every bucket, the permutation ends with all
    buckets complete; it only ever swaps. *)
Lemma permute_placing (fuel cur : nat) (next : list nat) (arr : list K) :
  arr ≡ₚ arr0 → placing counts cur next arr → cur ≤ radix →
  radix + sum_list (bin_ends 0 counts) ≤ fuel + cur + sum_list next →
  let arr' :=
    permute radix digit reverse fuel offset (bin_ends 0 counts) cur next arr in
  arr' ≡ₚ arr0 ∧ ∃ next', placing counts radix next' arr'.
Proof.
  revert cur next arr.
  induction fuel as [|fuel IH]; intros cur next arr Harr Hplacing Hcur Hfuel.
  - simpl. split; [done|]. exists next.
    pose proof (placing_sum _ _ _ Hplacing).
    apply (placing_le cur); [lia|done].
  - simpl. destruct (next !! cur) as [p|] eqn:Hp.
    2:{ split; [done|]. exists next.
        apply lookup_ge_None_1 in Hp.
        rewrite (placing_length _ _ _ _ _ _ _ _ Hplacing) in Hp.
        apply (placing_le cur); [lia|done]. }
    assert (cur < length counts) as Hcr.
    { rewrite <- (placing_length _ _ _ _ _ _ _ _ Hplacing).
      by eapply lookup_lt_Some. }
    rewrite bin_ends_lookup by done. simpl.
    destruct (Nat.ltb_spec p (s (S cur))) as [Hlt|Hge].
    + assert (p < length arr) as Hplen.
      { rewrite Harr, <- counts_sum.
        pose proof (sum_list_take_le counts (S cur)). lia. }
      destruct (lookup_lt_is_Some_2 arr p Hplen) as [k Hk]. rewrite Hk.
      destruct (Nat.eqb_spec (bin k) cur) as [Hhome|Haway].
      * apply IH; [done| |done|].
        -- by apply (placing_home_step _ _ _ p k).
        -- pose proof (sum_list_insert next cur p (S p) Hp). lia.
      * assert (bin k < radix) as Hbin.
        { apply bins_lt. rewrite <- Harr. by eapply list_elem_of_lookup_2. }
        destruct (lookup_lt_is_Some_2 next (bin k)) as [q Hq].
        { rewrite (placing_length _ _ _ _ _ _ _ _ Hplacing). lia. }
        rewrite Hq. apply IH; [by rewrite swap_Permutation| |done|].
        -- by apply (placing_swap_step _ _ _ (bin k) p q k).
        -- pose proof (sum_list_insert next (bin k) q (S q) Hq). lia.
    + apply IH; [done| |lia|lia].
      apply (placing_next_bin _ _ _ p); [done..|lia].
Qed.
End Permute.

(** ** One level of partitioning *)

Section Chunks.
Context {K : Type}.

Lemma chunks_length (sizes : list nat) (arr : list K) :
  length (chunks sizes arr) = length sizes.
Proof.
  revert arr. induction sizes as [|c sizes IH]; intros arr; [done|].
  simpl. by rewrite IH.
Qed.

Lemma chunks_concat (sizes : list nat) (arr : list K) :
  length arr ≤ sum_list sizes → concat (chunks sizes arr) = arr.
Proof.
  revert arr. induction sizes as [|c sizes IH]; intros arr Hlen; simpl in *.
  - symmetry. apply nil_length_inv. lia.
  - rewrite IH; [apply take_drop|]. rewrite length_drop. lia.
Qed.

(** A bucket is the piece of the range between its boundaries. *)
Lemma chunks_lookup (sizes : list nat) (arr : list K) (b c : nat) :
  sizes !! b = Some c →
  chunks sizes arr !! b
  = Some (take c (drop (sum_list (take b sizes)) arr)).
Proof.
  revert arr b. induction sizes as [|c' sizes IH]; intros arr [|b] Hb;
    try done; simpl in *.
  - by injection Hb as ->.
  - rewrite (IH _ _ Hb), drop_drop. done.
Qed.
End Chunks.

Section Level.
Context {K : Type}.
Variable radix : nat.
Variable digit : K → nat → nat.
Variable len : K → nat.
Variable reverse : bool.
Variable offset : nat.

Local Abbreviation bin := (bin_of radix digit reverse offset).

(** The Bucket Partitioner keeps the keys: the terminal bucket holds the
    keys that end at the offset, the digit buckets the others, each key in
    the bucket of its digit. *)
Lemma bucket_partitioner_spec (range : list K) :
  (∀ k, k ∈ range → len k ≠ offset → bin k < radix) →
  ∃ terminal buckets,
    bucket_partitioner radix digit len reverse offset range
    = (terminal, buckets) ∧
    terminal = filter (λ k, len k = offset) range ∧
    concat buckets ≡ₚ filter (λ k, len k ≠ offset) range ∧
    ∀ b bucket k, buckets !! b = Some bucket → k ∈ bucket → bin k = b.
Proof.
  intros Hbins. unfold bucket_partitioner, termination_handler.
  set (rest := filter (λ k, len k ≠ offset) range).
  set (counts := tally radix digit reverse offset rest).
  assert (∀ k, k ∈ rest → bin k < radix) as Hrest.
  { intros k Hk. apply list_elem_of_filter in Hk as [Hlen Hk].
    by apply Hbins. }
  assert (length counts = radix) as Hlen by apply tally_length.
  assert (sum_list counts = length rest) as Hsum by by apply tally_sum.
  destruct (permute_placing radix digit reverse offset rest counts Hlen
              (tally_lookup radix digit reverse offset rest) Hsum Hrest
              (length rest + radix) 0 (bin_starts 0 counts) rest)
    as [Hperm [next' Hplaced]].
  - done.
  - split.
    + apply bin_starts_length.
    + intros b p Hb.
      rewrite bin_starts_lookup in Hb
        by (rewrite <- (bin_starts_length 0); by eapply lookup_lt_Some).
      injection Hb as <-. simpl.
      pose proof (sum_list_take_mono counts b (S b)). lia.
    + intros b p i k Hb Hi.
      rewrite bin_starts_lookup in Hb
        by (rewrite <- (bin_starts_length 0); by eapply lookup_lt_Some).
      injection Hb as <-. simpl in Hi. lia.
    + intros b Hb. lia.
  - lia.
  - rewrite bin_ends_sum. lia.
  - set (placed := permute _ _ _ _ _ _ _ _ _) in *.
    eexists _, _. split; [reflexivity|]. split; [done|]. split.
    + rewrite chunks_concat; [done|]. rewrite Hperm. lia.
    + intros b bucket k Hb Hk.
      assert (b < radix) as Hbr.
      { rewrite <- Hlen, <- (chunks_length counts placed).
        by eapply lookup_lt_Some. }
      destruct (lookup_lt_is_Some_2 counts b) as [c Hc]; [lia|].
      rewrite (chunks_lookup _ _ _ _ Hc) in Hb. injection Hb as <-.
      apply elem_of_take in Hk as (i & Hi & Hic).
      rewrite lookup_drop in Hi.
      destruct Hplaced as [_ _ Hhome Hdone].
      assert (b < length counts) as Hbc by lia.
      apply (Hhome b _ (sum_list (take b counts) + i) k (Hdone b Hbr Hbc));
        [|done].
      rewrite (sum_list_take_S _ _ _ Hc). lia.
Qed.
End Level.

(** ** The recursion *)

Section Spread.
Context {K : Type}.
Variable radix : nat.
Variable digit : K → nat → nat.
Variable len : K → nat.
Variable comp : Compare K.
Variable fallback : Compare K → list K → list K.
Variable helper_threshold max_splits : nat.
Variable reverse : bool.

(** The fallback sort keeps its promise, the digits of a key lie below the
    radix, and the comparator is the digit order of the direction. *)
Hypothesis fallback_sorts : sorts fallback.
Hypothesis digit_lt_radix : ∀ k i, i < len k → digit k i < radix.
Hypothesis comp_order : ∀ a b,
  comp a b
  = if reverse then digit_gt digit len a b else digit_lt digit len a b.

Local Abbreviation bin := (bin_of radix digit reverse).
Local Abbreviation finish :=
  (recursion_controller comp fallback helper_threshold max_splits).

Lemma comp_swo : strict_weak_order comp.
Proof.
  apply (swo_ext _ _ comp_order).
  destruct reverse; [apply digit_gt_swo|apply digit_lt_swo].
Qed.

Lemma agree_sym (offset : nat) (a b : K) :
  agree digit offset a b → agree digit offset b a.
Proof. intros Hagree i Hi. symmetry. by apply Hagree. Qed.

(** A key that ends at the offset goes before the keys of its bucket that
    go on, and after them when the order is reversed. *)
Lemma in_order_terminal (offset : nat) (a b : K) :
  len a = offset → offset ≤ len b → agree digit offset a b →
  if reverse then in_order comp b a else in_order comp a b.
Proof.
  intros Ha Hb Hagree. pose proof (terminal_first digit len offset a b Ha Hb
                                     Hagree) as Hfirst.
  unfold in_order. rewrite !comp_order. by destruct reverse.
Qed.

Lemma in_order_ended (offset : nat) (a b : K) :
  len a = offset → len b = offset → agree digit offset a b →
  in_order comp a b.
Proof.
  intros Ha Hb Hagree.
  pose proof (in_order_terminal offset a b Ha ltac:(lia) Hagree).
  pose proof (in_order_terminal offset b a Hb ltac:(lia)
                (agree_sym _ _ _ Hagree)).
  by destruct reverse.
Qed.

(** The keys of an earlier bucket go before the keys of a later one. *)
Lemma in_order_bins (offset : nat) (a b : K) :
  offset < len a → offset < len b → agree digit offset a b →
  bin offset a < bin offset b →
  in_order comp a b.
Proof.
  intros Ha Hb Hagree Hbins. unfold in_order. rewrite comp_order.
  pose proof (digit_lt_radix a offset Ha).
  pose proof (digit_lt_radix b offset Hb).
  unfold bin_of, digit_gt, digit_lt in *. destruct reverse.
  - apply (smaller_digit_first digit len offset b a);
      [done|done|by apply agree_sym|lia].
  - by apply (smaller_digit_first digit len offset a b).
Qed.

Lemma same_bin_digit (offset : nat) (a b : K) :
  offset < len a → offset < len b → bin offset a = bin offset b →
  digit a offset = digit b offset.
Proof.
  intros Ha Hb Hbins.
  pose proof (digit_lt_radix a offset Ha).
  pose proof (digit_lt_radix b offset Hb).
  unfold bin_of in Hbins. destruct reverse; lia.
Qed.

Lemma bin_lt_radix (offset : nat) (k : K) :
  offset < len k → bin offset k < radix.
Proof.
  intros Hk. pose proof (digit_lt_radix k offset Hk).
  unfold bin_of. destruct reverse; lia.
Qed.

Lemma concat_fmap_Permutation (f : list K → list K) (ls : list (list K)) :
  (∀ l, l ∈ ls → f l ≡ₚ l) → concat (f <$> ls) ≡ₚ concat ls.
Proof.
  induction ls as [|l ls IH]; intros Hf; [done|]. simpl.
  rewrite (Hf l) by left. rewrite IH; [done|].
  intros l' Hl'. apply Hf. by right.
Qed.

(** The Recursion Controller leaves a bucket sorted, when the recursion it
    may start does. *)
Lemma recursion_controller_sorts (recurse : list K → list K) (split : nat)
    (bucket : list K) :
  (¬ max_splits ≤ S split →
   recurse bucket ≡ₚ bucket ∧ StronglySorted (in_order comp) (recurse bucket)) →
  finish recurse split bucket ≡ₚ bucket ∧
  StronglySorted (in_order comp) (finish recurse split bucket).
Proof.
  intros Hrec. unfold recursion_controller.
  destruct (Nat.ltb_spec (length bucket) 2) as [Hshort|Hlong].
  - split; [done|]. destruct bucket as [|x [|y bucket]]; simpl in *; try lia.
    + constructor.
    + repeat constructor.
  - destruct (Nat.ltb_spec (length bucket) helper_threshold); simpl.
    + apply fallback_sorts, comp_swo.
    + destruct (Nat.leb_spec max_splits (S split)).
      * apply fallback_sorts, comp_swo.
      * apply Hrec. lia.
Qed.

(** One level: when the recursion sorts the buckets of the next offset, the
    level sorts the range. *)
Lemma level_sorts (recurse : list K → list K) (split offset : nat)
    (range terminal : list K) (buckets : list (list K)) :
  (∀ k, k ∈ range → offset ≤ len k) →
  (∀ a b, a ∈ range → b ∈ range → agree digit offset a b) →
  (∀ bucket,
     (∀ k, k ∈ bucket → S offset ≤ len k) →
     (∀ a b, a ∈ bucket → b ∈ bucket → agree digit (S offset) a b) →
     ¬ max_splits ≤ S split →
     recurse bucket ≡ₚ bucket ∧
     StronglySorted (in_order comp) (recurse bucket)) →
  bucket_partitioner radix digit len reverse offset range
  = (terminal, buckets) →
  arrange reverse terminal (finish recurse split <$> buckets) ≡ₚ range ∧
  StronglySorted (in_order comp)
    (arrange reverse terminal (finish recurse split <$> buckets)).
Proof.
  intros Hlen Hagree Hrec Hpart.
  destruct (bucket_partitioner_spec radix digit len reverse offset range)
    as (terminal' & buckets' & Hpart' & Hterm & Hperm & Hbin).
  { intros k Hk Hne. apply bin_lt_radix. specialize (Hlen k Hk). lia. }
  rewrite Hpart in Hpart'. injection Hpart' as <- <-.
  assert (∀ t, t ∈ terminal → t ∈ range ∧ len t = offset) as Hended.
  { intros t Ht. rewrite Hterm in Ht.
    apply list_elem_of_filter in Ht. by destruct Ht. }
  assert (∀ b bucket k, buckets !! b = Some bucket → k ∈ bucket →
            k ∈ range ∧ offset < len k ∧ bin offset k = b) as Hgoes.
  { intros b bucket k Hb Hk.
    assert (k ∈ concat buckets) as Hin by (apply elem_of_concat; eauto).
    rewrite Hperm in Hin. apply list_elem_of_filter in Hin as [Hne Hin].
    specialize (Hlen k Hin). split_and!; [done|lia|by eapply Hbin]. }
  assert (∀ bucket, bucket ∈ buckets →
            finish recurse split bucket ≡ₚ bucket ∧
            StronglySorted (in_order comp) (finish recurse split bucket))
    as Hfinish.
  { intros bucket Hbucket. apply list_elem_of_lookup in Hbucket as [b Hb].
    apply recursion_controller_sorts. apply Hrec.
    - intros k Hk. destruct (Hgoes b bucket k Hb Hk) as (_ & ? & _). lia.
    - intros x y Hx Hy.
      destruct (Hgoes b bucket x Hb Hx) as (? & ? & Hbx).
      destruct (Hgoes b bucket y Hb Hy) as (? & ? & Hby).
      apply agree_S; [by apply Hagree|].
      apply same_bin_digit; [done..|congruence]. }
  assert (∀ b sorted k,
            (finish recurse split <$> buckets) !! b = Some sorted →
            k ∈ sorted → k ∈ range ∧ offset < len k ∧ bin offset k = b)
    as Hsorted.
  { intros b sorted k Hb Hk.
    apply list_lookup_fmap_Some in Hb as (bucket & -> & Hb).
    apply (Hgoes b bucket); [done|].
    rewrite <- (proj1 (Hfinish bucket (list_elem_of_lookup_2 _ _ _ Hb))).
    done. }
  assert (StronglySorted (in_order comp)
            (concat (finish recurse split <$> buckets))) as Hdigits.
  { apply StronglySorted_concat.
    - apply Forall_fmap, Forall_forall. intros bucket Hbucket.
      by apply Hfinish.
    - intros i j li lj x y Hij Hi Hj Hx Hy.
      destruct (Hsorted i li x Hi Hx) as (? & ? & Hbx).
      destruct (Hsorted j lj y Hj Hy) as (? & ? & Hby).
      apply (in_order_bins offset); [done|done|by apply Hagree|lia]. }
  assert (StronglySorted (in_order comp) terminal) as Hterminal.
  { apply StronglySorted_pairwise. intros x y Hx Hy.
    destruct (Hended x Hx), (Hended y Hy).
    apply (in_order_ended offset); [done..|by apply Hagree]. }
  assert (∀ t k, t ∈ terminal →
            k ∈ concat (finish recurse split <$> buckets) →
            if reverse then in_order comp k t else in_order comp t k)
    as Hcross.
  { intros t k Ht Hk. destruct (Hended t Ht).
    apply elem_of_concat in Hk as (b & sorted & Hb & Hk).
    destruct (Hsorted b sorted k Hb Hk) as (? & ? & _).
    apply (in_order_terminal offset); [done|lia|by apply Hagree]. }
  split.
  - transitivity (terminal ++ concat buckets).
    + pose proof (concat_fmap_Permutation (finish recurse split) buckets
                    (λ l Hl, proj1 (Hfinish l Hl))) as Hkept.
      unfold arrange. destruct reverse; rewrite Hkept;
        [apply Permutation_app_comm|done].
    + rewrite Hperm, Hterm. apply filter_app_complement.
  - unfold arrange. destruct reverse; apply StronglySorted_app; split_and!;
      try done; intros x y Hx Hy;
      first [by apply (Hcross y x)|by apply (Hcross x y)].
Qed.

Lemma spread_unfold (budget split offset : nat) (range : list K) :
  spread radix digit len comp fallback helper_threshold max_splits reverse
    budget split offset range
  = let '(terminal, buckets) :=
      bucket_partitioner radix digit len reverse offset range in
    arrange reverse terminal
      (finish
         match budget with
         | 0 => λ bucket, bucket
         | S budget' =>
             spread radix digit len comp fallback helper_threshold max_splits
               reverse budget' (S split) (S offset)
         end split <$> buckets).
Proof. by destruct budget. Qed.

(** The engine sorts every range of keys that reach the offset and agree
    below it, as long as the budget covers the splits left below the cap. *)
Lemma spread_sorts (budget split offset : nat) (range : list K) :
  max_splits ≤ split + budget →
  (∀ k, k ∈ range → offset ≤ len k) →
  (∀ a b, a ∈ range → b ∈ range → agree digit offset a b) →
  spread radix digit len comp fallback helper_threshold max_splits reverse
    budget split offset range ≡ₚ range ∧
  StronglySorted (in_order comp)
    (spread radix digit len comp fallback helper_threshold max_splits reverse
       budget split offset range).
Proof.
  revert split offset range.
  induction budget as [|budget IH]; intros split offset range Hcap Hlen Hagree;
    rewrite spread_unfold;
    destruct (bucket_partitioner radix digit len reverse offset range)
      as [terminal buckets] eqn:Hpart;
    apply (level_sorts _ split offset range); try done.
  - intros bucket _ _ Hsplit. lia.
  - intros bucket Hblen Hbagree Hsplit. apply IH; [lia|done..].
Qed.

(** The engine sorts. *)
Lemma spreadsort_sorts (range : list K) :
  spreadsort radix digit len comp fallback helper_threshold max_splits reverse
    range ≡ₚ range ∧
  StronglySorted (in_order comp)
    (spreadsort radix digit len comp fallback helper_threshold max_splits
       reverse range).
Proof.
  apply spread_sorts; [lia|intros; lia|]. intros a b _ _ i Hi. lia.
Qed.
End Spread.

(** ** Sorted sequences *)

Section Sorted.
Context {K : Type}.

Lemma in_order_ext (comp comp' : Compare K) (l : list K) :
  (∀ a b, comp a b = comp' a b) →
  StronglySorted (in_order comp) l → StronglySorted (in_order comp') l.
Proof.
  intros Hext. induction 1 as [|x l Hl IH Hx]; constructor; [done|].
  eapply Forall_impl; [exact Hx|]. intros y. unfold in_order.
  by rewrite Hext.
Qed.

Lemma StronglySorted_weaken (R R' : relation K) (l : list K) :
  (∀ x y, R x y → R' x y) → StronglySorted R l → StronglySorted R' l.
Proof.
  intros Himpl. induction 1 as [|x l Hl IH Hx]; constructor; [done|].
  eapply Forall_impl; [exact Hx|]. intros y. apply Himpl.
Qed.

Lemma StronglySorted_lookup (R : relation K) (l : list K) (i j : nat)
    (x y : K) :
  StronglySorted R l → i < j → l !! i = Some x → l !! j = Some y → R x y.
Proof.
  intros Hl. revert i j. induction Hl as [|z l Hl IH Hz]; intros i j Hij Hi Hj;
    [done|].
  destruct j as [|j]; [lia|]. destruct i as [|i]; simpl in *.
  - injection Hi as ->. rewrite Forall_forall in Hz. apply Hz.
    by eapply list_elem_of_lookup_2.
  - apply (IH i j); [lia|done..].
Qed.

Lemma StronglySorted_reverse (R : relation K) (l : list K) :
  StronglySorted R l → StronglySorted (flip R) (reverse l).
Proof.
  induction 1 as [|x l Hl IH Hx]; [constructor|].
  rewrite reverse_cons. apply StronglySorted_app. split_and!.
  - intros y z Hy Hz. apply list_elem_of_singleton in Hz as ->.
    rewrite Forall_forall in Hx. apply Hx. by apply elem_of_reverse.
  - done.
  - repeat constructor.
Qed.

(** In a sorted sequence a key that compares less than another stands
    before it. *)
Lemma sorted_all_before (comp : Compare K) (out : list K) (a b : K) :
  strict_weak_order comp → StronglySorted (in_order comp) out →
  comp a b = true → all_before a b out.
Proof.
  intros Hswo Hout Hab i j Hi Hj.
  destruct (decide (i < j)) as [|Hji]; [done|exfalso].
  destruct (decide (i = j)) as [->|Hne].
  - assert (a = b) as -> by congruence.
    by rewrite (swo_irreflexive _ Hswo) in Hab.
  - pose proof (StronglySorted_lookup _ _ j i b a Hout ltac:(lia) Hj Hi)
      as Hba.
    unfold in_order in Hba. congruence.
Qed.

Lemma in_order_total (comp : Compare K) :
  strict_weak_order comp → Total (in_order comp).
Proof.
  intros [Hirr Htrans _] x y. unfold in_order.
  destruct (comp y x) eqn:Hyx; [|by left]. right.
  destruct (comp x y) eqn:Hxy; [|done].
  by rewrite <- (Hirr x), (Htrans x y x).
Qed.

Lemma in_order_trans (comp : Compare K) :
  strict_weak_order comp → Transitive (in_order comp).
Proof.
  intros [Hirr Htrans Hinc] x y z. unfold in_order. intros Hyx Hzy.
  destruct (comp z x) eqn:Hzx; [exfalso|done].
  destruct (comp x y) eqn:Hxy.
  { by rewrite (Htrans z x y) in Hzy. }
  destruct (comp y z) eqn:Hyz.
  { by rewrite (Htrans y z x) in Hyx. }
  destruct (Hinc x y z) as [_ Hzx']; [done..|]. congruence.
Qed.

(** The merge sort of the examples keeps the promise of [std::sort]. *)
Lemma merge_sort_by_sorts : sorts (@merge_sort_by K).
Proof.
  intros comp l Hswo. unfold merge_sort_by. split.
  - apply merge_sort_Permutation.
  - pose proof (in_order_total comp Hswo).
    pose proof (in_order_trans comp Hswo).
    by apply StronglySorted_merge_sort.
Qed.

Lemma NoDup_fmap_eq {B : Type} (f : K → B) (l : list K) (x y : K) :
  NoDup (f <$> l) → x ∈ l → y ∈ l → f x = f y → x = y.
Proof.
  intros Hnodup Hx Hy Hf.
  apply list_elem_of_lookup in Hx as [i Hi].
  apply list_elem_of_lookup in Hy as [j Hj].
  assert (i = j) as ->; [|congruence].
  apply (NoDup_lookup (f <$> l) i j (f x)); [done|..].
  - by rewrite list_lookup_fmap, Hi.
  - by rewrite list_lookup_fmap, Hj, Hf.
Qed.
End Sorted.

(** * The entry points over the engine *)

Section ModelFacts.
Context {K C : Type} `{!Unsigned_char_type C}.
Variable size : K → nat.
Variable at_ : K → nat → C.
Variable less : Compare K.
Variable sort : Compare K → list K → list K.
Variable helper_threshold max_splits : nat.
Variable min_sort_size : Z.

Hypothesis sort_sorts : sorts sort.

Local Abbreviation run :=
  (@final K C (model_sort less sort)
     (model size at_ sort helper_threshold max_splits)).

Lemma char_digit_lt (getchar : Get_char K C) (k : K) (i : nat) :
  char_digit getchar k i < radix.
Proof. apply char_value_lt. Qed.

Lemma strict_prefix_lt (digit : K → nat → nat) (len : K → nat) (a b : K) :
  strict_prefix digit len a b → digit_lt digit len a b = true.
Proof.
  intros [Hlen Hagree]. unfold digit_lt.
  rewrite (key_digits_split digit len (len a) a) by lia.
  rewrite (key_digits_split digit len (len a) b) by lia.
  rewrite (agree_prefix digit (len a) a b Hagree), lex_lt_app.
  rewrite Nat.sub_diag.
  replace (len b - len a) with (S (len b - len a - 1)) by lia. done.
Qed.

(** The engine of the model sorts by the comparator it is given, when that
    is the digit order of its direction. *)
Lemma model_engine_sorts (getchar : Get_char K C) (length : Get_length K)
    (comp : Compare K) (reverse : bool) (range : list K) :
  (∀ a b, comp a b
          = if reverse then digit_gt (char_digit getchar) length a b
            else digit_lt (char_digit getchar) length a b) →
  let out :=
    spreadsort radix (char_digit getchar) length comp sort helper_threshold
      max_splits reverse range in
  out ≡ₚ range ∧ StronglySorted (in_order comp) out.
Proof.
  intros Hcomp. apply spreadsort_sorts; [done| |done].
  intros k i _. apply char_digit_lt.
Qed.

(** The engine the overloads with functors call starts at offset 0 with a
    fresh split counter, whatever digit it is handed. *)
Remark engine_get_starts_at_offset_0 (getchar : Get_char K C)
    (length : Get_length K) (unused : C) (range : list K) :
  engine_get (Detail := model size at_ sort helper_threshold max_splits)
    getchar length unused range
  = spread radix (char_digit getchar) length
      (digit_lt (char_digit getchar) length) sort helper_threshold max_splits
      false max_splits 0 0 range.
Proof. reflexivity. Qed.

Lemma less_swo (getchar : Get_char K C) (length : Get_length K) :
  (∀ a b, less a b = digit_lt (char_digit getchar) length a b) →
  strict_weak_order less.
Proof. intros Hless. eapply swo_ext; [exact Hless|apply digit_lt_swo]. Qed.

(** [string_sort(first, last, unused)] sorts in ascending digit order. *)
Lemma string_sort_unused_sorts (range : list K) (unused : C) :
  (∀ a b, less a b = digit_lt (char_digit at_) size a b) →
  ∃ out,
    run (string_sort_unused min_sort_size range unused) range = Some out ∧
    out ≡ₚ range ∧ StronglySorted (in_order less) out.
Proof.
  intros Hless. unfold string_sort_unused, final.
  destruct (too_small min_sort_size range); cbn [snd run_call];
    rewrite on_range_whole; eexists; (split; [reflexivity|]).
  - apply sort_sorts. by eapply less_swo.
  - destruct (model_engine_sorts at_ size (digit_lt (char_digit at_) size)
                false range) as [Hperm Hsorted]; [done|].
    split; [done|]. eapply in_order_ext; [|exact Hsorted]. done.
Qed.

(** [reverse_string_sort(first, last, comp, unused)] sorts in descending
    digit order, when [comp] is that order. *)
Lemma reverse_string_sort_unused_sorts (range : list K) (comp : Compare K)
    (unused : C) :
  (∀ a b, less a b = digit_lt (char_digit at_) size a b) →
  (∀ a b, comp a b = less b a) →
  ∃ out,
    run (reverse_string_sort_unused min_sort_size range comp unused) range
    = Some out ∧
    out ≡ₚ range ∧ StronglySorted (in_order comp) out.
Proof.
  intros Hless Hcomp.
  assert (∀ a b, comp a b = digit_gt (char_digit at_) size a b) as Hgreater.
  { intros a b. by rewrite Hcomp, Hless. }
  unfold reverse_string_sort_unused, final.
  destruct (too_small min_sort_size range); cbn [snd run_call];
    rewrite on_range_whole; eexists; (split; [reflexivity|]).
  - apply sort_sorts. eapply swo_ext; [exact Hgreater|apply digit_gt_swo].
  - destruct (model_engine_sorts at_ size (digit_gt (char_digit at_) size)
                true range) as [Hperm Hsorted]; [done|].
    split; [done|]. eapply in_order_ext; [|exact Hsorted]. done.
Qed.

(** [string_sort(first, last, getchar, length)] sorts in ascending digit
    order: the empty keys it skips are in place. *)
Lemma string_sort_get_sorts (range : list K) (getchar : Get_char K C)
    (length : Get_length K) :
  (∀ a b, less a b = digit_lt (char_digit getchar) length a b) →
  range ≠ [] →
  ∃ out,
    run (string_sort_get min_sort_size range getchar length) range = Some out ∧
    out ≡ₚ range ∧ StronglySorted (in_order less) out.
Proof.
  intros Hless Hne. unfold string_sort_get, final.
  assert (∀ a b, length a = 0 → in_order less a b) as Hempty.
  { intros a b Ha. unfold in_order. rewrite Hless.
    apply (terminal_first _ _ 0); [done|lia|]. intros i Hi. lia. }
  destruct (too_small min_sort_size range).
  { cbn [snd run_call]. rewrite on_range_whole.
    eexists; split; [reflexivity|]. apply sort_sorts. by eapply less_swo. }
  destruct (skip_front_spec length 0 range Hne) as (skipped & Hrun & Hend).
  destruct (range !! skipped) as [key|].
  - destruct Hend as [_ ->]. cbn [snd run_call]. rewrite on_range_suffix.
    eexists; split; [reflexivity|].
    destruct (model_engine_sorts getchar length
                (digit_lt (char_digit getchar) length) false
                (drop skipped range)) as [Hperm Hsorted]; [done|].
    cbn [engine_get model]. split.
    + by rewrite Hperm, take_drop.
    + apply StronglySorted_app. split_and!.
      * intros x y Hx _. apply elem_of_take in Hx as (i & Hi & Hlt).
        apply Hempty. by apply (Hrun i).
      * apply StronglySorted_pairwise. intros x y Hx _.
        apply elem_of_take in Hx as (i & Hi & Hlt).
        apply Hempty. by apply (Hrun i).
      * eapply in_order_ext; [|exact Hsorted]. done.
  - destruct Hend as [Hall ->]. cbn [snd].
    eexists; split; [reflexivity|]. split; [done|].
    apply StronglySorted_pairwise. intros x y Hx _.
    apply list_elem_of_lookup in Hx as [i Hi]. apply Hempty.
    apply (Hrun i); [|done]. apply lookup_lt_Some in Hi. lia.
Qed.
End ModelFacts.

Section ModelClaims.
Context {K C : Type} `{!Unsigned_char_type C}.
Variable size : K → nat.
Variable at_ : K → nat → C.
Variable less : Compare K.
Variable sort : Compare K → list K → list K.
Variable helper_threshold max_splits : nat.
Variable min_sort_size : Z.

Local Abbreviation run :=
  (@final K C (model_sort less sort)
     (model size at_ sort helper_threshold max_splits)).

(** C1: when [std::sort] keeps its promise and [operator<] is the digit
    order of the strings, [string_sort(first, last, unused)] leaves a
    permutation of the range in which every adjacent pair is in ascending
    digit order; [string_sort(first, last)] is the case of [unsigned char]. *)
Theorem string_sort_sorted (range : list K) (unused : C) :
  sorts sort →
  (∀ a b, less a b = digit_lt (char_digit at_) size a b) →
  ∃ out,
    run (string_sort_unused min_sort_size range unused) range = Some out ∧
    out ≡ₚ range ∧
    (∀ i a b, out !! i = Some a → out !! S i = Some b → in_order less a b) ∧
    StronglySorted (in_order less) out.
Proof.
  intros Hsort Hless.
  destruct (string_sort_unused_sorts size at_ less sort helper_threshold
              max_splits min_sort_size Hsort range unused Hless)
    as (out & Hout & Hperm & Hsorted).
  exists out. split_and!; try done.
  intros i a b Ha Hb.
  apply (StronglySorted_lookup _ out i (S i)); [done|lia|done..].
Qed.

(** C6: an ascending [string_sort], without functors or with [getchar]
    and [length], leaves a permutation of the range, so both keys are
    still there, in which every occurrence of a key stands strictly before
    every occurrence of a key it is a strict prefix of. *)
Theorem prefix_before_extension (range : list K) (unused : C)
    (getchar : Get_char K C) (length : Get_length K) (a b : K) :
  sorts sort → a ∈ range → b ∈ range →
  ((∀ x y, less x y = digit_lt (char_digit at_) size x y) →
   strict_prefix (char_digit at_) size a b →
   ∃ out,
     run (string_sort_unused min_sort_size range unused) range = Some out ∧
     out ≡ₚ range ∧ a ∈ out ∧ b ∈ out ∧
     all_before a b out) ∧
  ((∀ x y, less x y = digit_lt (char_digit getchar) length x y) →
   strict_prefix (char_digit getchar) length a b →
   ∃ out,
     run (string_sort_get min_sort_size range getchar length) range
     = Some out ∧
     out ≡ₚ range ∧ a ∈ out ∧ b ∈ out ∧
     all_before a b out).
Proof.
  intros Hsort Ha Hb. split; intros Hless Hprefix.
  - destruct (string_sort_unused_sorts size at_ less sort helper_threshold
                max_splits min_sort_size Hsort range unused Hless)
      as (out & Hout & Hperm & Hsorted).
    exists out. split_and!; [done|done|by rewrite Hperm|by rewrite Hperm|].
    apply (sorted_all_before less); [by eapply less_swo|done|].
    rewrite Hless. by apply strict_prefix_lt.
  - destruct (string_sort_get_sorts size at_ less sort helper_threshold
                max_splits min_sort_size Hsort range getchar length Hless)
      as (out & Hout & Hperm & Hsorted).
    { intros ->. by apply not_elem_of_nil in Ha. }
    exists out. split_and!; [done|done|by rewrite Hperm|by rewrite Hperm|].
    apply (sorted_all_before less); [by eapply less_swo|done|].
    rewrite Hless. by apply strict_prefix_lt.
Qed.

(** C7: on a range without two fully equal keys, [string_sort] followed by
    a reversal of the whole range leaves the sequence that
    [reverse_string_sort] leaves, when the comparator handed to
    [reverse_string_sort] is the descending order [operator>]; the
    overloads without [unused] are the case of [unsigned char]. *)
Theorem reverse_consistency (range : list K) (comp : Compare K)
    (unused unused' : C) :
  sorts sort →
  (∀ a b, less a b = digit_lt (char_digit at_) size a b) →
  (∀ a b, comp a b = less b a) →
  no_equal_keys (char_digit at_) size range →
  reverse <$> run (string_sort_unused min_sort_size range unused) range
  = run (reverse_string_sort_unused min_sort_size range comp unused') range.
Proof.
  intros Hsort Hless Hcomp Hdistinct.
  destruct (string_sort_unused_sorts size at_ less sort helper_threshold
              max_splits min_sort_size Hsort range unused Hless)
    as (up & -> & Hup & Hup_sorted).
  destruct (reverse_string_sort_unused_sorts size at_ less sort
              helper_threshold max_splits min_sort_size Hsort range comp
              unused' Hless Hcomp)
    as (down & -> & Hdown & Hdown_sorted).
  simpl. f_equal.
  apply (StronglySorted_unique_strong (in_order comp)); [|  |done|].
  - intros x y Hx Hy Hxy Hyx. unfold in_order in *.
    rewrite Hcomp, Hless in Hxy, Hyx.
    apply (NoDup_fmap_eq (key_digits (char_digit at_) size) range);
      [done| | |by apply lex_lt_total].
    + by rewrite <- Hup, <- elem_of_reverse.
    + by rewrite <- Hdown.
  - apply (StronglySorted_weaken (flip (in_order less)));
      [|by apply StronglySorted_reverse].
    intros x y. unfold flip, in_order. by rewrite Hcomp.
  - by rewrite reverse_Permutation, Hup, Hdown.
Qed.
End ModelClaims.

(** ** The character handed on by [string_sort(first, last, unused)] *)

Section UnusedValue.
Context {K C : Type} `{!Unsigned_char_type C, !Std_sort K, !Detail K C}.
Variable size : K → nat.
Variable at_ : K → nat → C.
Variable min_sort_size : Z.

Local Abbreviation digits := (key_digits (char_digit at_) size).

(** Two sorted arrangements of the same keys differ at most in the places
    of fully equal keys. *)
Lemma sorted_same_keys (l1 l2 : list K) :
  l1 ≡ₚ l2 →
  StronglySorted (in_order (digit_lt (char_digit at_) size)) l1 →
  StronglySorted (in_order (digit_lt (char_digit at_) size)) l2 →
  same_keys (char_digit at_) size l1 l2.
Proof.
  intros Hperm Hl1 Hl2. unfold same_keys.
  apply (StronglySorted_unique_strong (λ x y, lex_lt y x = false)).
  - intros x y _ _ Hxy Hyx. by apply lex_lt_total.
  - by apply (StronglySorted_fmap digits
                (in_order (digit_lt (char_digit at_) size))).
  - by apply (StronglySorted_fmap digits
                (in_order (digit_lt (char_digit at_) size))).
  - by apply fmap_Permutation.
Qed.

Lemma same_keys_eq (range l1 l2 : list K) :
  keys_by_digits (char_digit at_) size range →
  (∀ k, k ∈ l1 → k ∈ range) → (∀ k, k ∈ l2 → k ∈ range) →
  same_keys (char_digit at_) size l1 l2 → l1 = l2.
Proof.
  intros Hinj. unfold same_keys. revert l2.
  induction l1 as [|x l1 IH]; intros [|y l2] H1 H2 Heq; try done.
  injection Heq as Hxy Hrest. f_equal.
  - apply Hinj; [apply H1; left|apply H2; left|done].
  - apply IH; [intros k Hk; apply H1; by right|
               intros k Hk; apply H2; by right|done].
Qed.

End UnusedValue.

(** ** The engine on examples *)

(** The scenarios of the specification, with the radix path taken. *)
Example fruit_ascending :
  final (string_sort 2 fruit_keys) fruit_keys
  = Some [[x61; x70; x70; x6c; x65]; [x62; x61; x6e];
          [x62; x61; x6e; x61; x6e; x61]; [x62; x61; x6e; x64]].
Proof. vm_compute. reflexivity. Qed.

Example fruit_descending :
  final (reverse_string_sort 2 fruit_keys byte_greater) fruit_keys
  = reverse <$> final (string_sort 2 fruit_keys) fruit_keys.
Proof. vm_compute. reflexivity. Qed.

(** The empty keys the entry point skips stay in front. *)
Example four_keys_ascending :
  final (string_sort_get 2 four_keys byte_at length) four_keys
  = Some [[]; []; [x61]; [x62]].
Proof. vm_compute. reflexivity. Qed.

(** The radix work alone sorts: with no helper threshold, a split cap out
    of reach and a fallback that leaves its bucket as it is, the fruits
    twice over come out sorted, both ways. *)
Example radix_alone :
  spreadsort 256 (char_digit byte_at) length byte_less (λ _ bucket, bucket)
    0 50 false (fruit_keys ++ prefix_keys ++ fruit_keys)
  = merge_sort_by byte_less (fruit_keys ++ prefix_keys ++ fruit_keys) ∧
  spreadsort 256 (char_digit byte_at) length byte_greater (λ _ bucket, bucket)
    0 50 true (fruit_keys ++ prefix_keys ++ fruit_keys)
  = merge_sort_by byte_greater (fruit_keys ++ prefix_keys ++ fruit_keys).
Proof. split; vm_compute; reflexivity. Qed.

Example ab_descending :
  final (reverse_string_sort 2 ab_keys byte_greater) ab_keys
  = Some [[x62]; [x61; x62]; [x61]].
Proof. vm_compute. reflexivity. Qed.

Lemma string_sort_sorted_witness :
  sorts (@merge_sort_by (list byte)) ∧
  (∀ a b, byte_less a b = digit_lt (char_digit byte_at) length a b) ∧
  ∃ out,
    final (string_sort 2 prefix_keys) prefix_keys = Some out ∧
    out ≡ₚ prefix_keys ∧ StronglySorted (in_order byte_less) out.
Proof.
  split; [exact merge_sort_by_sorts|]. split; [exact (λ a b, eq_refl)|].
  destruct (string_sort_sorted length byte_at byte_less merge_sort_by 2 8 2
              prefix_keys x00 merge_sort_by_sorts (λ a b, eq_refl))
    as (out & Hout & Hperm & _ & Hsorted).
  exists out. exact (conj Hout (conj Hperm Hsorted)).
Defined.

(** The digits of a byte string are its bytes, so a byte string is told by
    its digits. *)
Lemma byte_key_digits (k : list byte) :
  key_digits (char_digit byte_at) length k = Byte.to_nat <$> k.
Proof.
  unfold key_digits, char_digit, byte_at. cbn [char_value unsigned_char].
  induction k as [|x k IH]; [done|].
  cbn [length]. rewrite <- cons_seq, !fmap_cons. f_equal.
  rewrite <- fmap_S_seq, <- list_fmap_compose. exact IH.
Qed.

Lemma byte_keys_by_digits (range : list (list byte)) :
  keys_by_digits (char_digit byte_at) length range.
Proof.
  intros a b _ _. rewrite !byte_key_digits. revert b.
  induction a as [|x a IH]; intros [|y b] Heq; try done.
  injection Heq as Hxy Hrest. f_equal; [|by apply IH].
  apply (f_equal Byte.of_nat) in Hxy. rewrite !Byte.of_to_nat in Hxy.
  by injection Hxy.
Qed.

(** The engine that reads its character sorts all the same. *)
Lemma choosy_model_sorts :
  @engine_sorts (list byte) byte unsigned_char choosy_model length byte_at.
Proof.
  intros unused l. cbn [engine choosy_model].
  destruct (Byte.eqb unused x00).
  - unfold engine, byte_model, model.
    exact (model_engine_sorts merge_sort_by 2 8 merge_sort_by_sorts byte_at
             length (digit_lt (char_digit byte_at) length) false l
             (λ a b, eq_refl)).
  - exact (merge_sort_by_sorts byte_less l
             (digit_lt_swo (char_digit byte_at) length)).
Qed.


(** The engine that reads its character, handed ['\0'] and handed
    another character: radix sort and comparison sort end alike. *)
Example choosy_either_way :
  @final _ _ byte_sort choosy_model (string_sort_unused 2 prefix_keys x00)
    prefix_keys
  = Some [[]; [x61]; [x62]; [x62; x61]] ∧
  @final _ _ byte_sort choosy_model (string_sort_unused 2 prefix_keys x01)
    prefix_keys
  = Some [[]; [x61]; [x62]; [x62; x61]].
Proof. split; vm_compute; reflexivity. Qed.

Lemma prefix_before_extension_witness :
  sorts (@merge_sort_by (list byte)) ∧
  [x62] ∈ prefix_keys ∧ [x62; x61] ∈ prefix_keys ∧
  (∀ a b, byte_less a b = digit_lt (char_digit byte_at) length a b) ∧
  strict_prefix (char_digit byte_at) length [x62] [x62; x61] ∧
  (∃ out,
     final (string_sort 2 prefix_keys) prefix_keys = Some out ∧
     out ≡ₚ prefix_keys ∧ [x62] ∈ out ∧ [x62; x61] ∈ out ∧
     all_before [x62] [x62; x61] out) ∧
  (∃ out,
     final (string_sort_get 2 prefix_keys byte_at length) prefix_keys
     = Some out ∧
     out ≡ₚ prefix_keys ∧ [x62] ∈ out ∧ [x62; x61] ∈ out ∧
     all_before [x62] [x62; x61] out).
Proof.
  assert ([x62] ∈ prefix_keys) as Ha by (do 3 right; left).
  assert ([x62; x61] ∈ prefix_keys) as Hb by left.
  assert (strict_prefix (char_digit byte_at) length [x62] [x62; x61])
    as Hprefix.
  { split; [simpl; lia|]. intros [|i] Hi; [done|simpl in Hi; lia]. }
  destruct (prefix_before_extension length byte_at byte_less merge_sort_by
              2 8 2 prefix_keys x00 byte_at length [x62] [x62; x61]
              merge_sort_by_sorts Ha Hb) as [Hplain Hget].
  split; [exact merge_sort_by_sorts|].
  split; [exact Ha|]. split; [exact Hb|].
  split; [exact (λ a b, eq_refl)|]. split; [exact Hprefix|].
  split.
  - exact (Hplain (λ a b, eq_refl) Hprefix).
  - exact (Hget (λ a b, eq_refl) Hprefix).
Defined.

Lemma reverse_consistency_witness :
  sorts (@merge_sort_by (list byte)) ∧
  (∀ a b, byte_less a b = digit_lt (char_digit byte_at) length a b) ∧
  (∀ a b, byte_greater a b = byte_less b a) ∧
  no_equal_keys (char_digit byte_at) length prefix_keys ∧
  reverse <$> final (string_sort 2 prefix_keys) prefix_keys
  = final (reverse_string_sort 2 prefix_keys byte_greater) prefix_keys.
Proof.
  assert (no_equal_keys (char_digit byte_at) length prefix_keys) as Hdistinct.
  { unfold no_equal_keys. by apply (bool_decide_unpack _). }
  split; [exact merge_sort_by_sorts|].
  split; [exact (λ a b, eq_refl)|]. split; [exact (λ a b, eq_refl)|].
  split; [exact Hdistinct|].
  exact (reverse_consistency length byte_at byte_less merge_sort_by 2 8 2
           prefix_keys byte_greater x00 x00 merge_sort_by_sorts
           (λ a b, eq_refl) (λ a b, eq_refl) Hdistinct).
Defined.

(** * More on the entry points *)

(** ** The scans on any range *)

Section ScanCases.
Context {K : Type}.
Variable length : Get_length K.

(** The forward scan on any range: it leaves an empty range at once, runs
    through a range of empty keys, or stops at the first key of non-zero
    length. *)
Lemma skip_front_cases (range : list K) :
  (range = [] ∧ skip_front length 0 range = ([], scan_out_of_range)) ∨
  (range ≠ [] ∧ (∀ key, key ∈ range → length key = 0) ∧
   skip_front length 0 range
   = (get_length <$> seq 0 (List.length range), scan_return)) ∨
  (∃ skipped key,
     range !! skipped = Some key ∧ length key ≠ 0 ∧
     (∀ i k, i < skipped → range !! i = Some k → length k = 0) ∧
     skip_front length 0 range
     = (get_length <$> seq 0 (S skipped), scan_at skipped key)).
Proof.
  destruct (decide (range = [])) as [->|Hne]; [by left|right].
  destruct (skip_front_spec length 0 range Hne) as (skipped & Hrun & Hend).
  destruct (range !! skipped) as [key|] eqn:Hkey.
  - right. destruct Hend as [Hnz Hscan]. by exists skipped, key.
  - left. destruct Hend as [-> Hscan]. split_and!; [done| |done].
    intros key Hin. apply list_elem_of_lookup in Hin as [i Hi].
    apply (Hrun i); [|done]. by eapply lookup_lt_Some.
Qed.

(** The backward scan on any range: it leaves an empty range at the front
    at once, runs through a range of empty keys, or stops at the last key
    of non-zero length. *)
Lemma skip_back_cases (range : list K) :
  (range = [] ∧
   skip_back length range (List.length range) = ([], scan_out_of_range)) ∨
  (range ≠ [] ∧ (∀ key, key ∈ range → length key = 0) ∧
   skip_back length range (List.length range)
   = (get_length <$> reverse (seq 0 (List.length range)), scan_return)) ∨
  (∃ stop key,
     range !! stop = Some key ∧ length key ≠ 0 ∧
     (∀ i k, stop < i → range !! i = Some k → length k = 0) ∧
     skip_back length range (List.length range)
     = (get_length <$> reverse (seq stop (List.length range - stop)),
        scan_at stop key)).
Proof.
  destruct (decide (range = [])) as [->|Hne]; [by left|right].
  assert (0 < List.length range) as Hpos.
  { destruct range; [done|simpl; lia]. }
  destruct (skip_back_spec length range (List.length range) Hpos)
    as (stop & key & Hlt & Hkey & Hrun & Hfront & Hscan); [done|].
  destruct (Nat.eqb_spec (length key) 0) as [Hz|Hnz].
  - left. specialize (Hfront Hz). subst stop.
    rewrite Nat.sub_0_r in Hscan. split_and!; [done| |done].
    intros k Hin. apply list_elem_of_lookup in Hin as [i Hi].
    destruct i as [|i]; [congruence|].
    apply (Hrun (S i)); [|done]. apply lookup_lt_Some in Hi. lia.
  - right. exists stop, key. split_and!; try done.
    intros i k Hi Hk. apply (Hrun i); [|done].
    apply lookup_lt_Some in Hk. lia.
Qed.
End ScanCases.

Section EndingOfOverloads.
Context {K C : Type}.
Variable min_sort_size : Z.

Lemma string_sort_get_ending (range : list K) (getchar : Get_char K C)
    (length : Get_length K) :
  ending min_sort_size range getchar length (std_sort 0 (List.length range))
    (λ p unused,
       detail_string_sort_get p (List.length range) getchar length unused)
    (string_sort_get min_sort_size range getchar length).
Proof.
  unfold ending, string_sort_get.
  destruct (too_small min_sort_size range) eqn:Hsmall.
  { left. by apply too_small_true in Hsmall. }
  right. apply too_small_false in Hsmall.
  destruct (skip_front_cases length range)
    as [[Hnil ->]|[(Hne & Hall & ->)|(p & key & Hkey & Hnz & _ & ->)]].
  - by left.
  - right; left. split_and!; [done..|]. eexists. split_and!; [| |done].
    + apply NoDup_seq.
    + apply Forall_seq. intros; lia.
  - right; right. split; [done|]. eexists _, p, key.
    apply lookup_lt_Some in Hkey as Hp. split_and!; [| |done..].
    + apply NoDup_seq.
    + apply Forall_seq. intros; lia.
Qed.

Lemma string_sort_get_comp_ending (range : list K) (getchar : Get_char K C)
    (length : Get_length K) (comp : Compare K) :
  ending min_sort_size range getchar length
    (std_sort_comp 0 (List.length range) comp)
    (λ p unused,
       detail_string_sort_get_comp p (List.length range) getchar length comp
         unused)
    (string_sort_get_comp min_sort_size range getchar length comp).
Proof.
  unfold ending, string_sort_get_comp.
  destruct (too_small min_sort_size range) eqn:Hsmall.
  { left. by apply too_small_true in Hsmall. }
  right. apply too_small_false in Hsmall.
  destruct (skip_front_cases length range)
    as [[Hnil ->]|[(Hne & Hall & ->)|(p & key & Hkey & Hnz & _ & ->)]].
  - by left.
  - right; left. split_and!; [done..|]. eexists. split_and!; [| |done].
    + apply NoDup_seq.
    + apply Forall_seq. intros; lia.
  - right; right. split; [done|]. eexists _, p, key.
    apply lookup_lt_Some in Hkey as Hp. split_and!; [| |done..].
    + apply NoDup_seq.
    + apply Forall_seq. intros; lia.
Qed.

Lemma reverse_string_sort_get_comp_ending (range : list K)
    (getchar : Get_char K C) (length : Get_length K) (comp : Compare K) :
  ending min_sort_size range getchar length
    (std_sort_comp 0 (List.length range) comp)
    (λ p unused,
       detail_reverse_string_sort_get_comp 0 (p + 1) getchar length comp
         unused)
    (reverse_string_sort_get_comp min_sort_size range getchar length comp).
Proof.
  unfold ending, reverse_string_sort_get_comp.
  destruct (too_small min_sort_size range) eqn:Hsmall.
  { left. by apply too_small_true in Hsmall. }
  right. apply too_small_false in Hsmall.
  destruct (skip_back_cases length range)
    as [[Hnil ->]|[(Hne & Hall & ->)|(p & key & Hkey & Hnz & _ & ->)]].
  - by left.
  - right; left. split_and!; [done..|]. eexists. split_and!; [| |done].
    + rewrite reverse_Permutation. apply NoDup_seq.
    + apply Forall_reverse, Forall_seq. intros; lia.
  - right; right. split; [done|]. eexists _, p, key.
    apply lookup_lt_Some in Hkey as Hp. split_and!; [| |done..].
    + rewrite reverse_Permutation. apply NoDup_seq.
    + apply Forall_reverse, Forall_seq. intros; lia.
Qed.
End EndingOfOverloads.

(** ** What an ending tells *)

Section EndingFacts.
Context {K C : Type}.
Variable min_sort_size : Z.
Variable range : list K.
Variable getchar : Get_char K C.
Variable length : Get_length K.
Variable small_call : call K C.
Variable engine_call : nat → C → call K C.
Variable b : behaviour K C.

Hypothesis b_ending :
  ending min_sort_size range getchar length small_call engine_call b.
Hypothesis engine_call_distinct : ∀ p unused, engine_call p unused ≠ small_call.

Lemma ending_out_of_range :
  b.2 = out_of_range ↔ range = [] ∧ (min_sort_size ≤ 0)%Z.
Proof.
  destruct b_ending
    as [[Hsmall ->]|[(Hbig & -> & ->)|[(Hbig & Hne & _ & ps & _ & _ & ->)
       |(Hbig & ps & p & key & _ & _ & Hkey & _ & ->)]]]; simpl in *.
  - split; [done|]. intros [-> Hmin]. simpl in Hsmall. lia.
  - done.
  - split; [done|]. by intros [? _].
  - split; [done|]. by intros [-> _].
Qed.

Lemma ending_returned :
  b.2 = returned ↔
  (min_sort_size ≤ Z.of_nat (List.length range))%Z ∧ range ≠ [] ∧
  ∀ key, key ∈ range → length key = 0.
Proof.
  destruct b_ending
    as [[Hsmall ->]|[(Hbig & -> & ->)|[(Hbig & Hne & Hall & ps & _ & _ & ->)
       |(Hbig & ps & p & key & _ & _ & Hkey & Hnz & ->)]]]; simpl in *.
  - split; [done|]. intros [Hbig _]. lia.
  - split; [done|]. by intros (_ & Hne & _).
  - done.
  - split; [done|]. intros (_ & _ & Hall). destruct Hnz.
    apply Hall. by eapply list_elem_of_lookup_2.
Qed.

Lemma ending_small :
  b.2 = delegated small_call ↔
  (Z.of_nat (List.length range) < min_sort_size)%Z.
Proof.
  destruct b_ending
    as [[Hsmall ->]|[(Hbig & -> & ->)|[(Hbig & Hne & Hall & ps & _ & _ & ->)
       |(Hbig & ps & p & key & _ & _ & Hkey & Hnz & ->)]]]; simpl in *.
  - done.
  - split; [done|]. lia.
  - split; [done|]. lia.
  - split; [|lia]. intros [= Heq]. by apply engine_call_distinct in Heq.
Qed.

Lemma ending_engine :
  (min_sort_size ≤ Z.of_nat (List.length range))%Z →
  (∃ key, key ∈ range ∧ length key ≠ 0) →
  ∃ p key, range !! p = Some key ∧ length key ≠ 0 ∧
           b.2 = delegated (engine_call p (getchar key 0)).
Proof.
  intros Hbig' (key' & Hin & Hnz').
  destruct b_ending
    as [[Hsmall ->]|[(Hbig & -> & ->)|[(Hbig & Hne & Hall & ps & _ & _ & ->)
       |(Hbig & ps & p & key & _ & _ & Hkey & Hnz & ->)]]]; simpl in *.
  - lia.
  - by apply not_elem_of_nil in Hin.
  - destruct Hnz'. by apply Hall.
  - by exists p, key.
Qed.

Lemma ending_engine_inv (c : call K C) :
  b.2 = delegated c → c ≠ small_call →
  (min_sort_size ≤ Z.of_nat (List.length range))%Z ∧
  ∃ key, key ∈ range ∧ length key ≠ 0.
Proof.
  intros Hc Hne.
  destruct b_ending
    as [[Hsmall ->]|[(Hbig & -> & ->)|[(Hbig & _ & Hall & ps & _ & _ & ->)
       |(Hbig & ps & p & key & _ & _ & Hkey & Hnz & ->)]]]; simpl in *;
    try done.
  - congruence.
  - split; [done|]. exists key. split; [|done].
    by eapply list_elem_of_lookup_2.
Qed.

Lemma filter_get_length (ps : list nat) :
  filter (λ a, is_get_char a = true) (get_length <$> ps) = [].
Proof.
  induction ps as [|p ps IH]; [done|]. simpl.
  by rewrite filter_cons_False.
Qed.

Lemma ending_getchar : getchar_at_key_start range length b.
Proof.
  destruct b_ending
    as [[Hsmall ->]|[(Hbig & -> & ->)|[(Hbig & _ & Hall & ps & _ & _ & ->)
       |(Hbig & ps & p & key & _ & _ & Hkey & Hnz & ->)]]]; split; simpl.
  - intros a Ha. by apply not_elem_of_nil in Ha.
  - lia.
  - intros a Ha. by apply not_elem_of_nil in Ha.
  - lia.
  - intros a Ha Hget. apply list_elem_of_fmap in Ha as (q & -> & _). done.
  - rewrite filter_get_length. simpl. lia.
  - intros a Ha Hget. apply elem_of_app in Ha as [Ha|Ha].
    + apply list_elem_of_fmap in Ha as (q & -> & _). done.
    + apply list_elem_of_singleton in Ha as ->. by exists key.
  - rewrite filter_app, filter_get_length. simpl. lia.
Qed.

Lemma filter_not_getchar (ps : list nat) (l : list access) :
  Forall (λ a, is_get_char a = true) l →
  access_pos <$> filter (λ a, is_get_char a = false)
                   ((get_length <$> ps) ++ l)
  = ps.
Proof.
  intros Hl. rewrite filter_app.
  replace (filter (λ a, is_get_char a = false) l) with (@nil access).
  - rewrite app_nil_r. induction ps as [|p ps IH]; [done|].
    rewrite fmap_cons, filter_cons_True by done.
    rewrite fmap_cons, IH. done.
  - induction Hl as [|a l Ha Hl IH]; [done|].
    rewrite filter_cons_False; [done|]. by rewrite Ha.
Qed.

Lemma ending_lengths : lengths_read_once range b.
Proof.
  destruct b_ending
    as [[Hsmall ->]|[(Hbig & -> & ->)|[(Hbig & _ & Hall & ps & Hps & Hin & ->)
       |(Hbig & ps & p & key & Hps & Hin & Hkey & Hnz & ->)]]];
    split; cbn [fst]; try by constructor.
  - rewrite <- (app_nil_r (get_length <$> ps)).
    by rewrite filter_not_getchar.
  - by apply Forall_fmap.
  - rewrite filter_not_getchar; [done|]. by repeat constructor.
  - apply Forall_app. split; [by apply Forall_fmap|].
    apply Forall_singleton. simpl. by eapply lookup_lt_Some.
Qed.
End EndingFacts.

(** ** How the overloads with functors end *)

Section OverloadEndings.
Context {K C : Type}.
Variable min_sort_size : Z.

(** X1: whatever the range and the threshold, an overload with functors
    calls [getchar] at most once, at offset 0, and on a key of the range
    whose length is not 0: it never asks for the first character of an
    empty key. *)
Theorem getchar_only_at_key_start (range : list K) (getchar : Get_char K C)
    (length : Get_length K) (comp : Compare K) :
  getchar_at_key_start range length
    (string_sort_get min_sort_size range getchar length) ∧
  getchar_at_key_start range length
    (string_sort_get_comp min_sort_size range getchar length comp) ∧
  getchar_at_key_start range length
    (reverse_string_sort_get_comp min_sort_size range getchar length comp).
Proof.
  split_and!.
  - exact (ending_getchar _ _ _ _ _ _ _
             (string_sort_get_ending min_sort_size range getchar length)).
  - exact (ending_getchar _ _ _ _ _ _ _
             (string_sort_get_comp_ending min_sort_size range getchar length
                comp)).
  - exact (ending_getchar _ _ _ _ _ _ _
             (reverse_string_sort_get_comp_ending min_sort_size range getchar
                length comp)).
Qed.


(** X2: an overload with functors reads outside the range exactly when the
    range is empty and the threshold is not positive; the overloads without
    functors never do. *)
Theorem reads_outside_iff (range : list K) (getchar : Get_char K C)
    (length : Get_length K) (comp : Compare K) (unused : C) :
  ((string_sort_get min_sort_size range getchar length).2 = out_of_range ↔
   range = [] ∧ (min_sort_size ≤ 0)%Z) ∧
  ((string_sort_get_comp min_sort_size range getchar length comp).2
   = out_of_range ↔
   range = [] ∧ (min_sort_size ≤ 0)%Z) ∧
  ((reverse_string_sort_get_comp min_sort_size range getchar length comp).2
   = out_of_range ↔
   range = [] ∧ (min_sort_size ≤ 0)%Z) ∧
  (string_sort_unused min_sort_size range unused).2 ≠ out_of_range ∧
  (reverse_string_sort_unused min_sort_size range comp unused).2
  ≠ out_of_range.
Proof.
  split_and!.
  - exact (ending_out_of_range _ _ _ _ _ _ _
             (string_sort_get_ending min_sort_size range getchar length)).
  - exact (ending_out_of_range _ _ _ _ _ _ _
             (string_sort_get_comp_ending min_sort_size range getchar length
                comp)).
  - exact (ending_out_of_range _ _ _ _ _ _ _
             (reverse_string_sort_get_comp_ending min_sort_size range getchar
                length comp)).
  - unfold string_sort_unused. by destruct (too_small min_sort_size range).
  - unfold reverse_string_sort_unused.
    by destruct (too_small min_sort_size range).
Qed.

(** X3: an overload with functors returns without a call of a collaborator
    exactly when the range is not empty, reaches the threshold, and holds
    keys of length 0 only: a range with a key of non-zero length is always
    handed to a collaborator. *)
Theorem returns_iff_all_empty (range : list K) (getchar : Get_char K C)
    (length : Get_length K) (comp : Compare K) :
  let all_empty :=
    (min_sort_size ≤ Z.of_nat (List.length range))%Z ∧ range ≠ [] ∧
    ∀ key, key ∈ range → length key = 0 in
  ((string_sort_get min_sort_size range getchar length).2 = returned ↔
   all_empty) ∧
  ((string_sort_get_comp min_sort_size range getchar length comp).2
   = returned ↔ all_empty) ∧
  ((reverse_string_sort_get_comp min_sort_size range getchar length comp).2
   = returned ↔ all_empty).
Proof.
  intros all_empty. split_and!.
  - exact (ending_returned _ _ _ _ _ _ _
             (string_sort_get_ending min_sort_size range getchar length)).
  - exact (ending_returned _ _ _ _ _ _ _
             (string_sort_get_comp_ending min_sort_size range getchar length
                comp)).
  - exact (ending_returned _ _ _ _ _ _ _
             (reverse_string_sort_get_comp_ending min_sort_size range getchar
                length comp)).
Qed.

(** X4: an overload with functors ends in [std::sort] exactly when the
    range is below the threshold, and in its engine exactly when the range
    reaches the threshold and holds a key of non-zero length. *)
Theorem collaborator_called_iff (range : list K) (getchar : Get_char K C)
    (length : Get_length K) (comp : Compare K) :
  let n := List.length range in
  let small := (Z.of_nat n < min_sort_size)%Z in
  let radix_work :=
    (min_sort_size ≤ Z.of_nat n)%Z ∧ ∃ key, key ∈ range ∧ length key ≠ 0 in
  (((string_sort_get min_sort_size range getchar length).2
    = delegated (std_sort 0 n) ↔ small) ∧
   ((∃ first unused,
       (string_sort_get min_sort_size range getchar length).2
       = delegated (detail_string_sort_get first n getchar length unused)) ↔
    radix_work)) ∧
  (((string_sort_get_comp min_sort_size range getchar length comp).2
    = delegated (std_sort_comp 0 n comp) ↔ small) ∧
   ((∃ first unused,
       (string_sort_get_comp min_sort_size range getchar length comp).2
       = delegated
           (detail_string_sort_get_comp first n getchar length comp unused)) ↔
    radix_work)) ∧
  (((reverse_string_sort_get_comp min_sort_size range getchar length comp).2
    = delegated (std_sort_comp 0 n comp) ↔ small) ∧
   ((∃ last unused,
       (reverse_string_sort_get_comp min_sort_size range getchar length
          comp).2
       = delegated
           (detail_reverse_string_sort_get_comp 0 last getchar length comp
              unused)) ↔
    radix_work)).
Proof.
  intros n small radix_work.
  pose proof (string_sort_get_ending min_sort_size range getchar length)
    as Hget.
  pose proof (string_sort_get_comp_ending min_sort_size range getchar length
                comp) as Hcomp.
  pose proof (reverse_string_sort_get_comp_ending min_sort_size range getchar
                length comp) as Hrev.
  split_and!.
  - by apply (ending_small _ _ _ _ _ _ _ Hget).
  - split.
    + intros (first & unused & Hcall).
      by apply (ending_engine_inv _ _ _ _ _ _ _ Hget _ Hcall).
    + intros [Hbig Hkey].
      destruct (ending_engine _ _ _ _ _ _ _ Hget Hbig Hkey)
        as (p & key & _ & _ & Hcall). eauto.
  - by apply (ending_small _ _ _ _ _ _ _ Hcomp).
  - split.
    + intros (first & unused & Hcall).
      by apply (ending_engine_inv _ _ _ _ _ _ _ Hcomp _ Hcall).
    + intros [Hbig Hkey].
      destruct (ending_engine _ _ _ _ _ _ _ Hcomp Hbig Hkey)
        as (p & key & _ & _ & Hcall). eauto.
  - by apply (ending_small _ _ _ _ _ _ _ Hrev).
  - split.
    + intros (last & unused & Hcall).
      by apply (ending_engine_inv _ _ _ _ _ _ _ Hrev _ Hcall).
    + intros [Hbig Hkey].
      destruct (ending_engine _ _ _ _ _ _ _ Hrev Hbig Hkey)
        as (p & key & _ & _ & Hcall). eauto.
Qed.
End OverloadEndings.

(** ** The keys the reverse overload leaves alone *)

Section ReverseFrame.
Context {K C : Type} `{!Std_sort K, !Detail K C}.
Variable min_sort_size : Z.

Lemma on_range_prefix (f : list K → list K) (last : nat) (range : list K) :
  on_range f 0 last range = f (take last range) ++ drop last range.
Proof. unfold on_range. by rewrite take_0, drop_0, Nat.sub_0_r. Qed.

(** X5: on a range that reaches the threshold, [reverse_string_sort] with
    functors leaves a range of keys of length 0 only as it is; and when
    [stop] is the place of the last key of non-zero length, it calls its
    engine on the keys up to and including that key, with the first
    character of that key, and the keys behind [stop] stay where they
    are. *)
Theorem reverse_keeps_trailing_empties (range : list K)
    (getchar : Get_char K C) (length : Get_length K) (comp : Compare K) :
  (min_sort_size ≤ Z.of_nat (List.length range))%Z →
  (range ≠ [] → (∀ k, k ∈ range → length k = 0) →
   (reverse_string_sort_get_comp min_sort_size range getchar length comp).2
   = returned ∧
   final (reverse_string_sort_get_comp min_sort_size range getchar length
            comp) range
   = Some range) ∧
  (∀ stop key,
     range !! stop = Some key → length key ≠ 0 →
     (∀ k, k ∈ drop (stop + 1) range → length k = 0) →
     (reverse_string_sort_get_comp min_sort_size range getchar length comp).2
     = delegated (detail_reverse_string_sort_get_comp 0 (stop + 1) getchar
                    length comp (getchar key 0)) ∧
     final (reverse_string_sort_get_comp min_sort_size range getchar length
              comp) range
     = Some (reverse_engine_get_comp getchar length comp (getchar key 0)
               (take (stop + 1) range)
             ++ drop (stop + 1) range)).
Proof.
  intros Hbig. apply too_small_false in Hbig.
  unfold reverse_string_sort_get_comp, final. rewrite Hbig. split.
  - intros Hne Hall.
    destruct (skip_back_cases length range)
      as [[-> _]|[(_ & _ & ->)|(stop & key & Hkey & Hnz & _ & _)]];
      [done|done|].
    destruct Hnz. apply Hall. by eapply list_elem_of_lookup_2.
  - intros stop key Hkey Hnz Hbehind.
    destruct (skip_back_cases length range)
      as [[-> _]|[(_ & Hall & _)|(stop' & key' & Hkey' & Hnz' & Hrun & ->)]].
    + done.
    + destruct Hnz. apply Hall. by eapply list_elem_of_lookup_2.
    + assert (stop' = stop) as ->.
      { destruct (Nat.lt_trichotomy stop stop') as [Hlt|[Heq|Hgt]].
        - destruct Hnz'. apply Hbehind.
          apply (list_elem_of_lookup_2 _ (stop' - (stop + 1))).
          rewrite lookup_drop, <- Hkey'. f_equal. lia.
        - done.
        - destruct Hnz. by apply (Hrun stop). }
      assert (key' = key) as -> by congruence.
      cbn [snd run_call]. by rewrite on_range_prefix.
Qed.
End ReverseFrame.

Lemma reverse_keeps_trailing_empties_witness :
  ((2 ≤ Z.of_nat (length [[]; []; [] : list byte]))%Z ∧
   [[]; []; [] : list byte] ≠ [] ∧
   (∀ k : list byte, k ∈ [[]; []; [] : list byte] → length k = 0) ∧
   final (reverse_string_sort_get_comp 2 [[]; []; []] byte_at length
            byte_greater) [[]; []; []]
   = Some [[]; []; []]) ∧
  ((2 ≤ Z.of_nat (length four_keys))%Z ∧
   four_keys !! 2 = Some [x61] ∧ length [x61] ≠ 0 ∧
   (∀ k, k ∈ drop (2 + 1) four_keys → length k = 0) ∧
   (reverse_string_sort_get_comp 2 four_keys byte_at length byte_greater).2
   = delegated (detail_reverse_string_sort_get_comp 0 (2 + 1) byte_at length
                  byte_greater (byte_at [x61] 0)) ∧
   final (reverse_string_sort_get_comp 2 four_keys byte_at length
            byte_greater) four_keys
   = Some (reverse_engine_get_comp byte_at length byte_greater
             (byte_at [x61] 0) (take (2 + 1) four_keys)
           ++ drop (2 + 1) four_keys)).
Proof.
  assert ((2 ≤ Z.of_nat (length [[]; []; [] : list byte]))%Z) as Hbig0
    by (simpl; lia).
  assert ([[]; []; [] : list byte] ≠ []) as Hne by discriminate.
  assert (∀ k : list byte, k ∈ [[]; []; [] : list byte] → length k = 0)
    as Hempty.
  { intros k Hk. apply list_elem_of_In in Hk. simpl in Hk.
    by destruct Hk as [<-|[<-|[<-|[]]]]. }
  assert ((2 ≤ Z.of_nat (length four_keys))%Z) as Hbig by (simpl; lia).
  assert (four_keys !! 2 = Some [x61]) as Hkey by reflexivity.
  assert (length [x61] ≠ 0) as Hnz by (simpl; lia).
  assert (∀ k, k ∈ drop (2 + 1) four_keys → length k = 0) as Hbehind.
  { intros k Hk. apply list_elem_of_singleton in Hk. by subst k. }
  split.
  - split; [exact Hbig0|]. split; [exact Hne|]. split; [exact Hempty|].
    exact (proj2 (proj1 (reverse_keeps_trailing_empties 2 [[]; []; []]
                           byte_at length byte_greater Hbig0) Hne Hempty)).
  - split; [exact Hbig|]. split; [exact Hkey|]. split; [exact Hnz|].
    split; [exact Hbehind|].
    exact (proj2 (reverse_keeps_trailing_empties 2 four_keys byte_at length
                    byte_greater Hbig) 2 [x61] Hkey Hnz Hbehind).
Defined.

(** The four keys again: the empty key at the back stays, the engine gets
    the three keys before it. *)
Example four_keys_descending :
  final (reverse_string_sort_get_comp 2 four_keys byte_at length
           byte_greater) four_keys
  = Some [[x62]; [x61]; []; []].
Proof. vm_compute. reflexivity. Qed.

(** ** The header moves no key itself *)

Section Permutes.
Context {K : Type}.
Variable radix : nat.
Variable digit : K → nat → nat.
Variable len : K → nat.
Variable comp : Compare K.
Variable fallback : Compare K → list K → list K.
Variable helper_threshold max_splits : nat.
Variable reverse : bool.

Hypothesis fallback_permutes : ∀ comp l, fallback comp l ≡ₚ l.
Hypothesis digit_below_radix : ∀ k i, digit k i < radix.

(** The engine of the model keeps the keys, whatever the comparator. *)
Lemma spread_permutes (budget split offset : nat) (range : list K) :
  spread radix digit len comp fallback helper_threshold max_splits reverse
    budget split offset range ≡ₚ range.
Proof.
  revert split offset range.
  induction budget as [|budget IH]; intros split offset range;
    rewrite spread_unfold;
    (destruct (bucket_partitioner_spec radix digit len reverse offset range)
       as (terminal & buckets & -> & -> & Hperm & _);
     [intros k _ _; pose proof (digit_below_radix k offset);
      unfold bin_of; destruct reverse; lia|]);
    (transitivity (filter (λ k, len k = offset) range ++ concat buckets);
     [|rewrite Hperm; apply filter_app_complement]).
  - pose proof (concat_fmap_Permutation
                  (recursion_controller comp fallback helper_threshold
                     max_splits (λ bucket, bucket) split) buckets) as Hkept.
    unfold arrange. destruct reverse; rewrite Hkept;
      try apply Permutation_app_comm; try done;
      intros l _; unfold recursion_controller; by repeat case_match.
  - pose proof (concat_fmap_Permutation
                  (recursion_controller comp fallback helper_threshold
                     max_splits
                     (spread radix digit len comp fallback helper_threshold
                        max_splits reverse budget (S split) (S offset))
                     split) buckets) as Hkept.
    unfold arrange. destruct reverse; rewrite Hkept;
      try apply Permutation_app_comm; try done;
      intros l _; unfold recursion_controller; by repeat case_match.
Qed.
End Permutes.

Lemma byte_sort_permutes : sort_permutes (list byte).
Proof. intros comp l. apply merge_sort_Permutation. Qed.

Lemma byte_model_permutes : engines_permute (list byte) byte.
Proof.
  assert (∀ comp l, @merge_sort_by (list byte) comp l ≡ₚ l) as Hsort.
  { intros comp l. apply merge_sort_Permutation. }
  split_and!; intros; apply spread_permutes; try done;
    intros k i; apply char_value_lt.
Qed.

Section KeepsKeys.
Context {K C : Type} `{!Std_sort K, !Detail K C}.
Variable min_sort_size : Z.

Lemma on_range_Permutation (f : list K → list K) (first last : nat)
    (range : list K) :
  (∀ l, f l ≡ₚ l) → first ≤ last → on_range f first last range ≡ₚ range.
Proof.
  intros Hf Hle. unfold on_range. rewrite Hf.
  rewrite <- (take_drop first range) at 4. f_equiv.
  rewrite <- (take_drop (last - first) (drop first range)) at 2.
  rewrite drop_drop. by replace (first + (last - first)) with last by lia.
Qed.

(** X6: every overload hands on a sub-range that lies inside its range,
    and when [std::sort] and the engines only permute the range they are
    handed, it leaves a permutation of its range: the header itself moves,
    drops and doubles no key. *)
Theorem header_keeps_keys (range : list K) (getchar : Get_char K C)
    (length : Get_length K) (comp : Compare K) (unused : C) :
  let kept (b : behaviour K C) :=
    hands_on_inside range b ∧
    (sort_permutes K → engines_permute K C →
     ∀ out, final b range = Some out → out ≡ₚ range) in
  kept (string_sort_unused min_sort_size range unused) ∧
  kept (reverse_string_sort_unused min_sort_size range comp unused) ∧
  kept (string_sort_get min_sort_size range getchar length) ∧
  kept (string_sort_get_comp min_sort_size range getchar length comp) ∧
  kept (reverse_string_sort_get_comp min_sort_size range getchar length comp).
Proof.
  intros kept. subst kept. unfold hands_on_inside, final.
  split; [|split; [|split; [|split]]].
  - unfold string_sort_unused.
    destruct (too_small min_sort_size range); cbn [snd];
      (split; [intros c [= <-]; cbn [call_range fst snd]; lia|]);
      intros Hsort (Hengine & Hreverse & Hget & Hcomp & Hrevcomp) out;
      cbn [run_call]; intros [= <-]; apply on_range_Permutation;
      auto with lia.
  - unfold reverse_string_sort_unused.
    destruct (too_small min_sort_size range); cbn [snd];
      (split; [intros c [= <-]; cbn [call_range fst snd]; lia|]);
      intros Hsort (Hengine & Hreverse & Hget & Hcomp & Hrevcomp) out;
      cbn [run_call]; intros [= <-]; apply on_range_Permutation;
      auto with lia.
  - destruct (string_sort_get_ending min_sort_size range getchar length)
      as [[_ ->]|[(_ & _ & ->)|[(_ & _ & _ & ps & _ & _ & ->)
         |(_ & ps & p & key & _ & _ & Hkey & _ & ->)]]]; cbn [snd];
      try apply lookup_lt_Some in Hkey;
      (split;
       [intros c Hc; try discriminate Hc; injection Hc as <-;
        cbn [call_range fst snd]; lia|]);
      intros Hsort (Hengine & Hreverse & Hget & Hcomp & Hrevcomp) out Hout;
      try discriminate Hout; injection Hout as <-; try done;
      cbn [run_call]; apply on_range_Permutation; auto with lia.
  - destruct (string_sort_get_comp_ending min_sort_size range getchar length
                comp)
      as [[_ ->]|[(_ & _ & ->)|[(_ & _ & _ & ps & _ & _ & ->)
         |(_ & ps & p & key & _ & _ & Hkey & _ & ->)]]]; cbn [snd];
      try apply lookup_lt_Some in Hkey;
      (split;
       [intros c Hc; try discriminate Hc; injection Hc as <-;
        cbn [call_range fst snd]; lia|]);
      intros Hsort (Hengine & Hreverse & Hget & Hcomp & Hrevcomp) out Hout;
      try discriminate Hout; injection Hout as <-; try done;
      cbn [run_call]; apply on_range_Permutation; auto with lia.
  - destruct (reverse_string_sort_get_comp_ending min_sort_size range getchar
                length comp)
      as [[_ ->]|[(_ & _ & ->)|[(_ & _ & _ & ps & _ & _ & ->)
         |(_ & ps & p & key & _ & _ & Hkey & _ & ->)]]]; cbn [snd];
      try apply lookup_lt_Some in Hkey;
      (split;
       [intros c Hc; try discriminate Hc; injection Hc as <-;
        cbn [call_range fst snd]; lia|]);
      intros Hsort (Hengine & Hreverse & Hget & Hcomp & Hrevcomp) out Hout;
      try discriminate Hout; injection Hout as <-; try done;
      cbn [run_call]; apply on_range_Permutation; auto with lia.
Qed.
End KeepsKeys.

Lemma header_keeps_keys_witness :
  hands_on_inside four_keys
    (string_sort_get_comp 2 four_keys byte_at length byte_less) ∧
  sort_permutes (list byte) ∧ engines_permute (list byte) byte ∧
  ∀ out,
    final (string_sort_get_comp 2 four_keys byte_at length byte_less)
      four_keys = Some out →
    out ≡ₚ four_keys.
Proof.
  destruct (proj1 (proj2 (proj2 (proj2
    (header_keeps_keys 2 four_keys byte_at length byte_less x00)))))
    as [Hinside Hkept].
  split; [exact Hinside|].
  split; [exact byte_sort_permutes|]. split; [exact byte_model_permutes|].
  exact (Hkept byte_sort_permutes byte_model_permutes).
Defined.

(** ** The reverse overload mirrors the forward one *)

Section Mirror.
Context {K C : Type}.
Variable min_sort_size : Z.

Lemma mirror_seq (n m : nat) :
  m ≤ n → (λ p, n - 1 - p) <$> seq 0 m = reverse (seq (n - m) m).
Proof.
  induction m as [|m IH]; intros Hm; [done|].
  rewrite seq_S, fmap_app, IH by lia. simpl.
  replace (n - m) with (S (n - S m)) by lia.
  rewrite reverse_cons. do 2 f_equal. lia.
Qed.

Lemma mirror_get_length (n : nat) (ps : list nat) :
  mirror_access n <$> (get_length <$> ps)
  = get_length <$> ((λ p, n - 1 - p) <$> ps).
Proof. rewrite <- !list_fmap_compose. by apply list_fmap_ext. Qed.

(** X7: [reverse_string_sort] with functors does on a range what
    [string_sort] with functors and [comp] does on the range turned round,
    mirrored: it reads the mirrored positions in the same order, ends the
    same way, and calls its engine on as many keys at the front as the
    forward overload calls its engine on at the back, with the same
    character. *)
Theorem reverse_mirrors_forward (range : list K) (getchar : Get_char K C)
    (length : Get_length K) (comp : Compare K) :
  reverse_string_sort_get_comp min_sort_size range getchar length comp
  = (mirror_access (List.length range)
       <$> (string_sort_get_comp min_sort_size (reverse range) getchar length
              comp).1,
     mirror_outcome
       (string_sort_get_comp min_sort_size (reverse range) getchar length
          comp).2).
Proof.
  pose proof (skip_back_cases length range) as Hback_cases.
  pose proof (skip_front_cases length (reverse range)) as Hfront_cases.
  unfold reverse_string_sort_get_comp, string_sort_get_comp, too_small.
  rewrite length_reverse in *. set (n := List.length range) in *.
  assert (∀ i, i < n → reverse range !! i = range !! (n - S i)) as Hturn.
  { intros i Hi. by apply reverse_lookup. }
  destruct (Z.of_nat n <? min_sort_size)%Z; [done|].
  destruct Hback_cases
    as [[Hnil Hback]|[(Hne & Hall & Hback)
       |(stop & key & Hkey & Hnz & Hrun & Hback)]];
    rewrite Hback; clear Hback;
    destruct Hfront_cases
      as [[Hnil' Hfront]|[(Hne' & Hall' & Hfront)
         |(skipped & key' & Hkey' & Hnz' & Hrun' & Hfront)]];
    rewrite Hfront; clear Hfront; cbn [fst snd mirror_outcome].
  - done.
  - subst range. done.
  - subst range. done.
  - apply (f_equal reverse) in Hnil'. rewrite reverse_involutive in Hnil'.
    done.
  - by rewrite mirror_get_length, mirror_seq, Nat.sub_diag.
  - destruct Hnz'. apply Hall. rewrite <- elem_of_reverse.
    by eapply list_elem_of_lookup_2.
  - apply (f_equal reverse) in Hnil'. rewrite reverse_involutive in Hnil'.
    subst range. done.
  - destruct Hnz. apply Hall', elem_of_reverse.
    by eapply list_elem_of_lookup_2.
  - assert (stop < n) as Hstop by (by eapply lookup_lt_Some).
    assert (skipped < n) as Hskipped.
    { apply lookup_lt_Some in Hkey'. by rewrite length_reverse in Hkey'. }
    assert (stop = n - S skipped) as ->.
    { rewrite Hturn in Hkey' by done.
      destruct (decide (stop < n - S skipped)).
      { destruct Hnz'. by apply (Hrun (n - S skipped)). }
      destruct (decide (n - S skipped < stop)); [|lia].
      destruct Hnz. apply (Hrun' (n - S stop)); [lia|].
      rewrite Hturn by lia. by replace (n - S (n - S stop)) with stop by lia. }
    rewrite Hturn in Hkey' by done. assert (key' = key) as -> by congruence.
    rewrite fmap_app, mirror_get_length, mirror_seq by lia.
    cbn [fmap list_fmap mirror_access].
    replace (n - (n - S skipped)) with (S skipped) by lia.
    replace (n - 1 - skipped) with (n - S skipped) by lia.
    by replace (n - S skipped + 1) with (n - skipped) by lia.
Qed.
End Mirror.

(** The four keys turned round: the forward overload stops at position 1
    and hands its engine the three keys from there on with the character
    "a", where the reverse overload stops at position 2 and hands its engine
    the three keys up to there ([four_keys_back]). *)
Example four_keys_turned_round :
  string_sort_get_comp 2 (reverse four_keys) byte_at length byte_greater
  = ([get_length 0; get_length 1; get_char 1 0],
     delegated
       (detail_string_sort_get_comp 1 4 byte_at length byte_greater x61)).
Proof. vm_compute. reflexivity. Qed.
